(** * Sphere and cloth collision response (hw1/src/sphere.cpp)

    A shallow embedding of [Spheres::addSphere], [Spheres::collide()] and
    [Spheres::collide] on a [Cloth].  The C++ code computes on [float] through
    Eigen's [Vector4f]; the embedding is written once over an interface of
    scalar operations ([Scalar]) and instantiated three times:

    - [B32]: IEEE-754 binary32 with round-to-nearest-even, the arithmetic the
      program runs on (from the Standard Library's [SpecFloat]);
    - [Exact]: exact real arithmetic, in which the algebraic identities of
      the collision response are stated;
    - [Checked]: exact real arithmetic in which a division by zero or a
      square root of a negative number is an undefined result.

    Indices and counts are [int] in the program and natural numbers here.
    Of the buffers the renderer reads, [offsets] and [sizes] are modelled
    apart from the objects, by their sizes ([Buffers]), and the vertex data
    by [generateVertices]. *)

From Stdlib Require Import ZArith Reals Lra Lia Floats.SpecFloat.
From stdpp Require Import base tactics option list.

Set Default Proof Using "Type".

(** ** Scalars *)

(** The operations the program uses on [float].  [abs] is the absolute
    value of a [float], [leb] and [ltb] are [<=] and [<], and [lit n d] is the
    scalar denoted by the literal with value [n/d]: [0.8f] is [lit 8 10], and
    the [0.15] that multiplies a [Vector4f] is taken at the vector's scalar
    type, [lit 15 100]. *)
Class Scalar (F : Type) := {
  zero : F;
  add : F -> F -> F;
  sub : F -> F -> F;
  mul : F -> F -> F;
  div : F -> F -> F;
  opp : F -> F;
  sqrt : F -> F;
  abs : F -> F;
  leb : F -> F -> bool;
  ltb : F -> F -> bool;
  lit : Z -> Z -> F
}.

Declare Scope scalar_scope.
Delimit Scope scalar_scope with S.
Infix "+!" := add (at level 50, left associativity) : scalar_scope.
Infix "-!" := sub (at level 50, left associativity) : scalar_scope.
Infix "*!" := mul (at level 40, left associativity) : scalar_scope.
Infix "/!" := div (at level 40, left associativity) : scalar_scope.
Infix "<=!" := leb (at level 70, no associativity) : scalar_scope.
Infix "<!" := ltb (at level 70, no associativity) : scalar_scope.
Open Scope scalar_scope.

(** ** Eigen's [Vector4f] *)

Record Vec4 (F : Type) := mkVec4 { vx : F; vy : F; vz : F; vw : F }.
Arguments mkVec4 {F} _ _ _ _.
Arguments vx {F} _.
Arguments vy {F} _.
Arguments vz {F} _.
Arguments vw {F} _.

Section Eigen.
Context {F : Type} `{Scalar F}.

Definition vzero : Vec4 F := mkVec4 zero zero zero zero.

Definition vadd (a b : Vec4 F) : Vec4 F :=
  mkVec4 (vx a +! vx b) (vy a +! vy b) (vz a +! vz b) (vw a +! vw b).

Definition vsub (a b : Vec4 F) : Vec4 F :=
  mkVec4 (vx a -! vx b) (vy a -! vy b) (vz a -! vz b) (vw a -! vw b).

Definition vopp (a : Vec4 F) : Vec4 F :=
  mkVec4 (opp (vx a)) (opp (vy a)) (opp (vz a)) (opp (vw a)).

(** [s * v] *)
Definition smul (s : F) (a : Vec4 F) : Vec4 F :=
  mkVec4 (s *! vx a) (s *! vy a) (s *! vz a) (s *! vw a).

(** [v * s] *)
Definition vmul (a : Vec4 F) (s : F) : Vec4 F :=
  mkVec4 (vx a *! s) (vy a *! s) (vz a *! s) (vw a *! s).

(** [v / s] *)
Definition vdiv (a : Vec4 F) (s : F) : Vec4 F :=
  mkVec4 (vx a /! s) (vy a /! s) (vz a /! s) (vw a /! s).

(** The sum of the four coefficients, in the order of Eigen's unrolled
    reduction of a fixed-size vector. *)
Definition vsum (a : Vec4 F) : F := (vx a +! vy a) +! (vz a +! vw a).

Definition dot (a b : Vec4 F) : F :=
  vsum (mkVec4 (vx a *! vx b) (vy a *! vy b) (vz a *! vz b) (vw a *! vw b)).

Definition squaredNorm (a : Vec4 F) : F := dot a a.

Definition norm (a : Vec4 F) : F := sqrt (squaredNorm a).

(** [normalized()] returns its argument when the squared norm is not
    positive. *)
Definition normalized (a : Vec4 F) : Vec4 F :=
  let z := squaredNorm a in
  if zero <! z then vdiv a (sqrt z) else a.

(** [cross3]: the cross product of the first three coefficients, the
    fourth coefficient of the result is zero. *)
Definition cross3 (a b : Vec4 F) : Vec4 F :=
  mkVec4 (vy a *! vz b -! vz a *! vy b)
         (vz a *! vx b -! vx a *! vz b)
         (vx a *! vy b -! vy a *! vx b)
         zero.
End Eigen.

Declare Scope vec_scope.
Delimit Scope vec_scope with V.
Infix "+^" := vadd (at level 50, left associativity) : vec_scope.
Infix "-^" := vsub (at level 50, left associativity) : vec_scope.
Infix "*^" := smul (at level 40, left associativity) : vec_scope.
Infix "^*" := vmul (at level 40, left associativity) : vec_scope.
Infix "^/" := vdiv (at level 40, left associativity) : vec_scope.
Notation "-^ a" := (vopp a) (at level 35, right associativity) : vec_scope.
Open Scope vec_scope.

(** ** The particle buffer *)

(** Modelled from the spec: the [Particles] class is declared in a header
    that is not among the sources.  The spec's data model gives it as a
    mapping from index to position, velocity, acceleration, mass, inverse
    mass and rotation; [getCapacity] is the number of slots and [resize]
    keeps the slots it can and leaves the contents of new ones unspecified
    ([uninit] below). *)
Record Particle (F : Type) := mkParticle {
  p_position : Vec4 F;
  p_velocity : Vec4 F;
  p_acceleration : Vec4 F;
  p_mass : F;
  p_inverseMass : F;
  p_rotation : Vec4 F
}.
Arguments mkParticle {F} _ _ _ _ _ _.
Arguments p_position {F} _.
Arguments p_velocity {F} _.
Arguments p_acceleration {F} _.
Arguments p_mass {F} _.
Arguments p_inverseMass {F} _.
Arguments p_rotation {F} _.

Abbreviation Particles F := (list (Particle F)).

Section ParticleBuffer.
Context {F : Type} `{Scalar F}.

Definition set_position (v : Vec4 F) (p : Particle F) : Particle F :=
  mkParticle v (p_velocity p) (p_acceleration p) (p_mass p) (p_inverseMass p) (p_rotation p).
Definition set_velocity (v : Vec4 F) (p : Particle F) : Particle F :=
  mkParticle (p_position p) v (p_acceleration p) (p_mass p) (p_inverseMass p) (p_rotation p).
Definition set_acceleration (v : Vec4 F) (p : Particle F) : Particle F :=
  mkParticle (p_position p) (p_velocity p) v (p_mass p) (p_inverseMass p) (p_rotation p).
Definition set_mass (m : F) (p : Particle F) : Particle F :=
  mkParticle (p_position p) (p_velocity p) (p_acceleration p) m (p_inverseMass p) (p_rotation p).
Definition set_rotation (v : Vec4 F) (p : Particle F) : Particle F :=
  mkParticle (p_position p) (p_velocity p) (p_acceleration p) (p_mass p) (p_inverseMass p) v.

(** Reads.  An index outside the buffer is undefined behaviour in the
    program; the model reads zeros there. *)
Definition position (P : Particles F) (i : nat) : Vec4 F :=
  from_option p_position vzero (P !! i).
Definition velocity (P : Particles F) (i : nat) : Vec4 F :=
  from_option p_velocity vzero (P !! i).
Definition acceleration (P : Particles F) (i : nat) : Vec4 F :=
  from_option p_acceleration vzero (P !! i).
Definition rotation (P : Particles F) (i : nat) : Vec4 F :=
  from_option p_rotation vzero (P !! i).
Definition mass (P : Particles F) (i : nat) : F :=
  from_option p_mass zero (P !! i).
Definition inverseMass (P : Particles F) (i : nat) : F :=
  from_option p_inverseMass zero (P !! i).

Definition getCapacity (P : Particles F) : nat := length P.
End ParticleBuffer.

Section ParticleWrites.
Context {F : Type} `{Scalar F}.

(** [field(i) += d] and [field(i) -= d].  The buffer is updated in place;
    the model returns the updated buffer. *)
Definition add_position (i : nat) (d : Vec4 F) (P : Particles F) : Particles F :=
  alter (fun p => set_position (p_position p +^ d) p) i P.
Definition sub_position (i : nat) (d : Vec4 F) (P : Particles F) : Particles F :=
  alter (fun p => set_position (p_position p -^ d) p) i P.
Definition add_velocity (i : nat) (d : Vec4 F) (P : Particles F) : Particles F :=
  alter (fun p => set_velocity (p_velocity p +^ d) p) i P.
Definition add_rotation (i : nat) (d : Vec4 F) (P : Particles F) : Particles F :=
  alter (fun p => set_rotation (p_rotation p +^ d) p) i P.
End ParticleWrites.

(** ** Constants of [configs.h] *)

(** The header is not among the sources: its constants are parameters. *)
Record Configs (F : Type) := mkConfigs {
  sphereDensity : F;
  deltaTime : F;
  frictionCoef : F;
  particlesPerEdge : nat
}.
Arguments mkConfigs {F} _ _ _ _.
Arguments sphereDensity {F} _.
Arguments deltaTime {F} _.
Arguments frictionCoef {F} _.
Arguments particlesPerEdge {F} _.

(** ** The [Spheres] object *)

Record Spheres (F : Type) := mkSpheres {
  sphereCount : nat;
  _particles : Particles F;
  _radius : list F
}.
Arguments mkSpheres {F} _ _ _.
Arguments sphereCount {F} _.
Arguments _particles {F} _.
Arguments _radius {F} _.

(** The states of the buffers at three points of the response to one
    contact: after the impulse has been added to the two velocities, before
    the positional correction, and after it. *)
Record Trace (B : Type) := mkTrace {
  after_impulse : B;
  before_correction : B;
  after_correction : B
}.
Arguments mkTrace {B} _ _ _.
Arguments after_impulse {B} _.
Arguments before_correction {B} _.
Arguments after_correction {B} _.

(** [for (int k = lo; k < hi; k++) body] *)
Fixpoint for_loop {St : Type} (n lo : nat) (body : nat -> St -> St) (s : St) : St :=
  match n with
  | O => s
  | S n' => for_loop n' (S lo) body (body lo s)
  end.

Definition for_range {St : Type} (lo hi : nat) (body : nat -> St -> St) (s : St) : St :=
  for_loop (hi - lo) lo body s.

Section SpheresOps.
Context {F : Type} `{Scalar F}.
Variable cfg : Configs F.
(** The contents of a slot that has been allocated and not written. *)
Variable uninit : Particle F.

Definition radius (s : Spheres F) (i : nat) : F := default zero (_radius s !! i).

(** [Spheres::initSpheres()] returns the object that [Spheres::Spheres()]
    builds: no sphere, one slot in each buffer. *)
Definition initSpheres : Spheres F := mkSpheres 0 [uninit] [zero].

(** [Spheres::addSphere] (the buffers of the renderer are left out). *)
Definition addSphere (pos : Vec4 F) (size : F) (s : Spheres F) : Spheres F :=
  let n := sphereCount s in
  let '(P, r) :=
    if Nat.eqb n (getCapacity (_particles s))
    then (resize (n * 2) uninit (_particles s), resize (n * 2) zero (_radius s))
    else (_particles s, _radius s) in
  let r := <[n := size]> r in
  let P := alter (set_position pos) n P in
  let P := alter (set_velocity vzero) n P in
  let P := alter (set_acceleration vzero) n P in
  let P := alter (set_mass (sphereDensity cfg *! size *! size *! size)) n P in
  mkSpheres (S n) P r.

(** *** Sphere against sphere *)

(** The condition of line 189. *)
Definition touching (s : Spheres F) (j i : nat) : bool :=
  norm (position (_particles s) i -^ position (_particles s) j)
    <=! radius s j +! radius s i.

(** Lines 190-224, the body of the conditional.  Every [let] is one line of
    the program, under the name the program gives it; [P] is [_particles],
    rebound at each write.  [rotate_friction_1] and [rotate_friction_2] are
    computed and not used, as in the program.  [correction] is declared
    [auto]; the expression has the same value at both of its uses. *)
Definition respond (s : Spheres F) (j i : nat) : Trace (Particles F) :=
  let coefRestitution := lit 8 10 in
  let P := _particles s in
  let vec := position P i -^ position P j in
  let v1 := dot (normalized vec) (velocity P j) *^ normalized vec in
  let v2 := dot (normalized vec) (velocity P i) *^ normalized vec in
  let m1 := mass P j in
  let m2 := mass P i in
  let v1_after :=
    (m1 *^ v1 +^ m2 *^ v2 +^ (m2 *! coefRestitution) *^ (v2 -^ v1)) ^/ (m1 +! m2) in
  let v2_after :=
    (m1 *^ v1 +^ m2 *^ v2 +^ (m1 *! coefRestitution) *^ (v1 -^ v2)) ^/ (m1 +! m2) in
  let P := add_velocity j (-^ v1 +^ v1_after) P in
  let P := add_velocity i (-^ v2 +^ v2_after) P in
  let P_impulse := P in

  let normal_force_value := norm ((v1_after -^ v1) ^/ deltaTime cfg ^* mass P j) in
  let v1 := normalized (velocity P j -^ v1) in
  let v2 := normalized (velocity P i -^ v2) in
  let move_friction_1 := (v2 -^ v1) ^* normal_force_value ^* frictionCoef cfg in
  let move_friction_2 := (v1 -^ v2) ^* normal_force_value ^* frictionCoef cfg in
  let P := add_velocity j (deltaTime cfg *^ move_friction_1 ^* inverseMass P j) P in
  let P := add_velocity i (deltaTime cfg *^ move_friction_2 ^* inverseMass P i) P in

  let rotate_direction_1 := normalized (cross3 (rotation P j) (normalized vec)) in
  let rotate_direction_2 := normalized (cross3 (rotation P i) (normalized vec)) in
  let rotate_friction_1 :=
    (rotate_direction_2 -^ rotate_direction_1) ^* normal_force_value ^* frictionCoef cfg in
  let rotate_friction_2 :=
    (rotate_direction_1 -^ rotate_direction_1) ^* normal_force_value ^* frictionCoef cfg in
  let P := add_velocity j (deltaTime cfg *^ rotate_direction_1 ^* inverseMass P j) P in
  let P := add_velocity i (deltaTime cfg *^ rotate_direction_2 ^* inverseMass P i) P in

  let I1 := lit 2 1 /! lit 5 1 *! mass P j *! radius s j *! radius s j in
  let I2 := lit 2 1 /! lit 5 1 *! mass P i *! radius s i *! radius s i in
  let P := add_rotation j
    (cross3 (normalized vec) (move_friction_1 +^ rotate_direction_1) ^/ I1 ^* deltaTime cfg) P in
  let P := add_rotation i
    (cross3 (normalized vec) (move_friction_2 +^ rotate_direction_2) ^/ I2 ^* deltaTime cfg) P in
  let P_before := P in

  let penetration :=
    radius s j +! radius s i -! abs (norm (position P i -^ position P j)) in
  let correction := penetration *^ normalized vec ^* lit 15 100 in
  let P := add_position i correction P in
  let P := sub_position j correction P in
  mkTrace P_impulse P_before P.

Definition collide_pair (j i : nat) (s : Spheres F) : Spheres F :=
  if touching s j i
  then mkSpheres (sphereCount s) (after_correction (respond s j i)) (_radius s)
  else s.

(** [Spheres::collide()] *)
Definition collide (s : Spheres F) : Spheres F :=
  for_range 0 (sphereCount s) (fun j =>
    for_range (j + 1) (sphereCount s) (fun i => collide_pair j i)) s.
End SpheresOps.

(** ** The cloth *)

(** Of the [Cloth] class the collision code uses the particle buffer that
    [particles()] returns, and nothing else. *)
Record Cloth (F : Type) := mkCloth { particles : Particles F }.
Arguments mkCloth {F} _.
Arguments particles {F} _.

Section SpheresCloth.
Context {F : Type} `{Scalar F}.
Variable cfg : Configs F.

(** The condition of line 137. *)
Definition touching_cloth (s : Spheres F) (cloth : Cloth F) (j i : nat) : bool :=
  norm (position (particles cloth) i -^ position (_particles s) j) <=! radius s j.

(** Lines 138-168.  [P] is the buffer of the spheres, [C] the buffer of
    the cloth. *)
Definition respond_cloth (s : Spheres F) (cloth : Cloth F) (j i : nat)
  : Trace (Particles F * Particles F) :=
  let coefRestitution := lit 0 1 in
  let P := _particles s in
  let C := particles cloth in
  let vec := position C i -^ position P j in
  let v1 := dot (normalized vec) (velocity P j) *^ normalized vec in
  let v2 := dot (normalized vec) (velocity C i) *^ normalized vec in
  let m1 := mass P j in
  let m2 := mass C i in
  let v1_after := (m1 *^ v1 +^ m2 *^ v2) ^/ (m1 +! m2) in
  let v2_after := (m1 *^ v1 +^ m2 *^ v2) ^/ (m1 +! m2) in
  let P := add_velocity j (-^ v1 +^ v1_after) P in
  let C := add_velocity i (-^ v2 +^ v2_after) C in
  let PC_impulse := (P, C) in

  let normal_force_value := norm ((v1_after -^ v1) ^/ deltaTime cfg ^* mass P j) in
  let v1 := normalized (velocity P j -^ v1) in
  let v2 := normalized (velocity C i -^ v2) in
  let move_friction_1 := (v2 -^ v1) ^* normal_force_value ^* frictionCoef cfg in
  let move_friction_2 := (v1 -^ v2) ^* normal_force_value ^* frictionCoef cfg in
  let P := add_velocity j (deltaTime cfg *^ move_friction_1 ^* inverseMass P j) P in
  let C := add_velocity i (deltaTime cfg *^ move_friction_2 ^* inverseMass C i) C in

  let rotate_direction_1 := normalized (cross3 (rotation P j) (normalized vec)) in
  let rotate_friction_1 :=
    (-^ rotate_direction_1) ^* normal_force_value ^* frictionCoef cfg in
  let rotate_friction_2 := rotate_direction_1 ^* normal_force_value ^* frictionCoef cfg in
  let P := add_velocity j (deltaTime cfg *^ rotate_direction_1 ^* inverseMass P j) P in
  let C := add_velocity i (deltaTime cfg *^ rotate_friction_2 ^* inverseMass C i) C in

  let I1 := lit 2 1 /! lit 5 1 *! mass P j *! radius s j *! radius s j in
  let P := add_rotation j
    (cross3 (normalized vec) (move_friction_1 +^ rotate_direction_1) ^/ I1 ^* deltaTime cfg) P in
  let PC_before := (P, C) in

  let penetration := radius s j -! abs (norm (position C i -^ position P j)) in
  let correction := penetration *^ normalized vec ^* lit 15 100 in
  let C := add_position i correction C in
  let P := sub_position j correction P in
  mkTrace PC_impulse PC_before (P, C).

Definition collide_cloth_pair (j i : nat) (sc : Spheres F * Cloth F)
  : Spheres F * Cloth F :=
  let '(s, cloth) := sc in
  if touching_cloth s cloth j i
  then
    let '(P, C) := after_correction (respond_cloth s cloth j i) in
    (mkSpheres (sphereCount s) P (_radius s), mkCloth C)
  else sc.

(** [Spheres::collide] on a cloth: the state is the pair of the two
    objects, both are updated in place. *)
Definition collide_cloth (s : Spheres F) (cloth : Cloth F) : Spheres F * Cloth F :=
  for_range 0 (sphereCount s) (fun j =>
    for_range 0 (particlesPerEdge cfg * particlesPerEdge cfg) (fun i =>
      collide_cloth_pair j i)) (s, cloth).
End SpheresCloth.

(** ** The three arithmetics *)

(** *** IEEE-754 binary32 *)

Module B32.
Definition prec : Z := 24.
Definition emax : Z := 128.

Definition of_Z (z : Z) : spec_float := binary_normalize prec emax z 0 false.

#[export] Instance scalar : Scalar spec_float := {|
  zero := S754_zero false;
  add := SFadd prec emax;
  sub := SFsub prec emax;
  mul := SFmul prec emax;
  div := SFdiv prec emax;
  opp := SFopp;
  sqrt := SFsqrt prec emax;
  abs := SFabs;
  leb := SFleb;
  ltb := SFltb;
  (* the quotient of two integers that are floats is rounded once, as the
     literal is *)
  lit := fun n d => SFdiv prec emax (of_Z n) (of_Z d)
|}.

Definition is_nan (x : spec_float) : bool :=
  match x with S754_nan => true | _ => false end.

(** The sign bit is clear, or the number is not a number. *)
Definition nonneg (x : spec_float) : Prop :=
  match x with
  | S754_zero s | S754_infinity s | S754_finite s _ _ => s = false
  | S754_nan => True
  end.
End B32.

(** *** Exact real arithmetic *)

Module Exact.
#[export] Instance Rle_decision : RelDecision Rle := Rle_dec.
#[export] Instance Rlt_decision : RelDecision Rlt := Rlt_dec.
#[export] Instance Req_decision : EqDecision R := Req_dec_T.

#[export] Instance scalar : Scalar R := {|
  zero := 0%R;
  add := Rplus;
  sub := Rminus;
  mul := Rmult;
  div := Rdiv;
  opp := Ropp;
  sqrt := R_sqrt.sqrt;
  abs := Rabs;
  leb := fun a b => bool_decide (a <= b)%R;
  ltb := fun a b => bool_decide (a < b)%R;
  lit := fun n d => (IZR n / IZR d)%R
|}.
End Exact.

(** *** Exact real arithmetic with undefined results *)

(** [None] is an undefined result: the quotient by zero, the square root
    of a negative number, a literal with denominator zero, and every
    operation on an undefined operand.  A comparison with an undefined
    operand is false. *)
Module Checked.
Import Exact.

Definition lift1 (f : R -> R) (a : option R) : option R :=
  match a with Some x => Some (f x) | None => None end.

Definition lift2 (f : R -> R -> R) (a b : option R) : option R :=
  match a, b with Some x, Some y => Some (f x y) | _, _ => None end.

Definition cdiv (a b : option R) : option R :=
  match a, b with
  | Some x, Some y => if decide (y = 0%R) then None else Some (x / y)%R
  | _, _ => None
  end.

Definition csqrt (a : option R) : option R :=
  match a with
  | Some x => if decide (x < 0)%R then None else Some (R_sqrt.sqrt x)
  | None => None
  end.

Definition cmp (f : R -> R -> bool) (a b : option R) : bool :=
  match a, b with Some x, Some y => f x y | _, _ => false end.

#[export] Instance scalar : Scalar (option R) := {|
  zero := Some 0%R;
  add := lift2 Rplus;
  sub := lift2 Rminus;
  mul := lift2 Rmult;
  div := cdiv;
  opp := lift1 Ropp;
  sqrt := csqrt;
  abs := lift1 Rabs;
  leb := cmp (fun x y => bool_decide (x <= y)%R);
  ltb := cmp (fun x y => bool_decide (x < y)%R);
  lit := fun n d => cdiv (Some (IZR n)) (Some (IZR d))
|}.

Definition vdefined (v : Vec4 (option R)) : Prop :=
  is_Some (vx v) /\ is_Some (vy v) /\ is_Some (vz v) /\ is_Some (vw v).

Definition pdefined (p : Particle (option R)) : Prop :=
  vdefined (p_position p) /\ vdefined (p_velocity p) /\
  vdefined (p_acceleration p) /\ is_Some (p_mass p) /\
  is_Some (p_inverseMass p) /\ vdefined (p_rotation p).

(** Every value held by a buffer is a defined number. *)
Definition defined (P : Particles (option R)) : Prop := Forall pdefined P.

(** A defined number that is positive, and one that is not zero. *)
Definition positive (a : option R) : Prop := exists x, a = Some x /\ (0 < x)%R.
Definition nonzero (a : option R) : Prop := exists x, a = Some x /\ x <> 0%R.

(** [P] is a buffer of defined numbers with the slots and the masses of
    [P0]. *)
Definition steady (P0 P : Particles (option R)) : Prop :=
  defined P /\ length P = length P0 /\ forall k, mass P k = mass P0 k.

(** The states on which the collision code divides by no zero: the
    values are defined, the spheres are within the buffers and have a
    positive mass and a radius other than zero. *)
Definition regular (s : Spheres (option R)) : Prop :=
  defined (_particles s) /\
  Forall is_Some (_radius s) /\
  sphereCount s <= length (_particles s) /\
  forall k, k < sphereCount s ->
    positive (mass (_particles s) k) /\ nonzero (radius s k).

(** A cloth of defined numbers whose particles have a positive mass. *)
Definition regular_cloth (n : nat) (cloth : Cloth (option R)) : Prop :=
  defined (particles cloth) /\
  n <= length (particles cloth) /\
  forall k, k < n -> positive (mass (particles cloth) k).

Definition regular_configs (cfg : Configs (option R)) : Prop :=
  nonzero (deltaTime cfg) /\ is_Some (frictionCoef cfg).
End Checked.

(** ** Notions the properties are stated with *)

(** The index pairs in the order in which the two loops of
    [Spheres::collide()] reach them. *)
Definition pairs (n : nat) : list (nat * nat) :=
  j ← seq 0 n; (fun i => (j, i)) <$> seq (j + 1) (n - (j + 1)).

(** The index pairs (sphere, cloth particle) in the order in which the two
    loops of the collision with a cloth reach them. *)
Definition cloth_pairs (n m : nat) : list (nat * nat) :=
  j ← seq 0 n; (fun i => (j, i)) <$> seq 0 m.

Section Notions.
Context {F : Type} `{Scalar F}.
Variable cfg : Configs F.

(** The linear momentum of the pair of spheres [j], [i]. *)
Definition momentum (P : Particles F) (j i : nat) : Vec4 F :=
  mass P j *^ velocity P j +^ mass P i *^ velocity P i.

(** The overlap depth of two spheres, as line 221 computes it. *)
Definition overlap (r : list F) (P : Particles F) (j i : nat) : F :=
  default zero (r !! j) +! default zero (r !! i)
    -! abs (norm (position P i -^ position P j)).

(** The depth by which a cloth particle is inside a sphere, as line 165
    computes it. *)
Definition overlap_cloth (r : list F) (P C : Particles F) (j i : nat) : F :=
  default zero (r !! j) -! abs (norm (position C i -^ position P j)).

(** Sphere [k] takes part in a contact during the pairs [l], processed
    in this order from state [s]. *)
Fixpoint involved (k : nat) (l : list (nat * nat)) (s : Spheres F) : bool :=
  match l with
  | [] => false
  | (j, i) :: l' =>
      ((Nat.eqb k j || Nat.eqb k i) && touching s j i)
      || involved k l' (collide_pair cfg j i s)
  end.

(** A body takes part in a contact of the spheres with the cloth during
    the pairs [l]: [inl k] is sphere [k], [inr k] is cloth particle [k]. *)
Fixpoint involved_cloth (b : nat + nat) (l : list (nat * nat))
    (sc : Spheres F * Cloth F) : bool :=
  match l with
  | [] => false
  | (j, i) :: l' =>
      (match b with inl k => Nat.eqb k j | inr k => Nat.eqb k i end
       && touching_cloth sc.1 sc.2 j i)
      || involved_cloth b l' (collide_cloth_pair cfg j i sc)
  end.

(** The object after a sequence of calls of [addSphere] on a new one. *)
Definition add_all (uninit : Particle F) (calls : list (Vec4 F * F)) : Spheres F :=
  foldl (fun s c => addSphere cfg uninit c.1 c.2 s) (initSpheres uninit) calls.
End Notions.

(** Two facts about the arithmetic, which hold of binary32 and of the
    reals. *)
Class NormNonneg (F : Type) `{Scalar F} : Prop :=
  abs_norm : forall v : Vec4 F, abs (norm v) = norm v.

Class LtNotLe (F : Type) `{Scalar F} : Prop :=
  ltb_leb : forall a b : F, (b <! a) = true -> (a <=! b) = false.

(** ** Concrete states *)

(** States of binary32 numbers.  The constants of [configs.h] are taken as
    density 1, time step 1/1024, friction coefficient 1/2 and one cloth
    particle per edge. *)
Module Examples32.
Import B32.

Definition num (n d : Z) : spec_float := lit n d.

Definition cfg : Configs spec_float :=
  mkConfigs (num 1 1) (num 1 1024) (num 1 2) 1.

Definition vec3 (x y z : spec_float) : Vec4 spec_float := mkVec4 x y z zero.

(** A body of mass 1 at rest at [(x, 0, 0)] with rotation [(0, 0, w)]. *)
Definition body (x w : spec_float) : Particle spec_float :=
  mkParticle (vec3 x zero zero) vzero vzero (num 1 1) (num 1 1) (vec3 zero zero w).

(** Two unit spheres at distance 1, each with rotation [(0, 0, 1)]. *)
Definition spinning : Spheres spec_float :=
  mkSpheres 2 [body zero (num 1 1); body (num 1 1) (num 1 1)] [num 1 1; num 1 1].

(** Two unit spheres at distance 1 and a third one far away. *)
Definition three : Spheres spec_float :=
  mkSpheres 3 [body zero zero; body (num 1 1) zero; body (num 8 1) zero]
    [num 1 1; num 1 1; num 1 1].

(** Two unit spheres at distance 4. *)
Definition apart : Spheres spec_float :=
  mkSpheres 2 [body zero zero; body (num 4 1) zero] [num 1 1; num 1 1].

(** A cloth of one particle, half a unit from the origin, and one of a
    particle and a second one, far from everything. *)
Definition cloth_near : Cloth spec_float := mkCloth [body (num 1 2) zero].
Definition cloth_two : Cloth spec_float :=
  mkCloth [body (num 1 2) zero; body (num 64 1) zero].
Definition cloth_far : Cloth spec_float := mkCloth [body (num 64 1) zero].

(** Two calls of [addSphere] with size 0 at the origin. *)
Definition two_points : Spheres spec_float :=
  add_all cfg (body zero zero) [(vzero, zero); (vzero, zero)].
End Examples32.

(** States of real numbers. *)
Module ExamplesExact.
Import Exact.

Definition cfg : Configs R := mkConfigs 1%R 1%R 1%R 1.

Definition body (x : R) : Particle R :=
  mkParticle (mkVec4 x 0 0 0)%R vzero vzero 1%R 1%R vzero.

(** Two unit spheres at distance 1. *)
Definition resting : Spheres R := mkSpheres 2 [body 0; body 1] [1%R; 1%R].

(** A cloth of one particle, half a unit from the origin. *)
Definition cloth_near : Cloth R := mkCloth [body (1 / 2)].
End ExamplesExact.

(** States of real numbers with undefined results. *)
Module ExamplesChecked.
Import Checked.

Definition cfg : Configs (option R) := mkConfigs (Some 1%R) (Some 1%R) (Some 1%R) 1.

Definition vec3 (x y z : R) : Vec4 (option R) :=
  mkVec4 (Some x) (Some y) (Some z) (Some 0%R).

(** A body at rest at [(x, 0, 0)] with mass [m]. *)
Definition body (x m : R) : Particle (option R) :=
  mkParticle (vec3 x 0 0) (vec3 0 0 0) (vec3 0 0 0) (Some m) (Some m) (vec3 0 0 0).

(** Two spheres of size 0, hence of mass 0, at the same place. *)
Definition massless : Spheres (option R) :=
  mkSpheres 2 [body 0 0; body 0 0] [Some 0%R; Some 0%R].

(** Two unit spheres of mass 1 at the same place, at rest. *)
Definition coincident : Spheres (option R) :=
  mkSpheres 2 [body 0 1; body 0 1] [Some 1%R; Some 1%R].

(** A cloth of one particle of mass 1, at the same place. *)
Definition cloth_there : Cloth (option R) := mkCloth [body 0 1].
End ExamplesChecked.

(** ** The mesh of the unit sphere *)

(** [generateVertices] computes its angles in [double] and calls [cosf] and
    [sinf]; these parts are parameters: [of_int] converts an [int] to
    [float], [two_pi_over n] is [static_cast<float>(EIGEN_PI * 2 / n)],
    [pi_over n] is [static_cast<float>(EIGEN_PI / n)] and [half_pi_minus x]
    is [static_cast<float>(EIGEN_PI / 2 - x)]. *)
Class FloatMath (F : Type) := {
  cosf : F -> F;
  sinf : F -> F;
  of_int : nat -> F;
  two_pi_over : nat -> F;
  pi_over : nat -> F;
  half_pi_minus : F -> F
}.

(** An [unsigned int] holds its value modulo [2^32]. *)
Definition u32 (z : Z) : Z := (z mod 2 ^ 32)%Z.

Section Mesh.
Context {F : Type} `{Scalar F} `{FloatMath F}.
(** [sphereStack] and [sphereSlice] of [configs.h]. *)
Variables sphereStack sphereSlice : nat.

(** Lines 25-31: the vertices of stack [i], appended to [vertices]. *)
Definition vertex_row (i : nat) (vertices : list F) : list F :=
  let sectorStep := two_pi_over sphereSlice in
  let stackStep := pi_over sphereStack in
  let stackAngle := half_pi_minus (of_int i *! stackStep) in
  let xy := cosf stackAngle in
  let z := sinf stackAngle in
  for_range 0 (sphereSlice + 1) (fun j vertices =>
    let sectorAngle := of_int j *! sectorStep in
    let x := xy *! cosf sectorAngle in
    let y := xy *! sinf sectorAngle in
    vertices ++ [x; y; z; x; y; z]) vertices.

(** Lines 20-32. *)
Definition vertex_data : list F :=
  for_range 0 (sphereStack + 1) vertex_row [].

(** Lines 36-46: the triangles between stack [i] and stack [i + 1].  [k1]
    and [k2] are [unsigned int] and are incremented with [j]. *)
Definition index_row (i : nat) (indices : list Z) : list Z :=
  let k1 := u32 (Z.of_nat i * (Z.of_nat sphereSlice + 1)) in
  let k2 := u32 (u32 (k1 + Z.of_nat sphereSlice) + 1) in
  (for_range 0 sphereSlice (fun j '(k1, k2, indices) =>
     let indices :=
       if negb (Nat.eqb i 0) then indices ++ [k1; k2; u32 (k1 + 1)] else indices in
     let indices :=
       if negb (Z.eqb (Z.of_nat i) (Z.of_nat sphereStack - 1))
       then indices ++ [u32 (k1 + 1); k2; u32 (k2 + 1)] else indices in
     (u32 (k1 + 1), u32 (k2 + 1), indices)) (k1, k2, indices)).2.

(** Lines 35-47. *)
Definition index_data : list Z :=
  for_range 0 sphereStack index_row [].

(** [generateVertices], on two empty vectors. *)
Definition generateVertices : list F * list Z := (vertex_data, index_data).

(** The six floats of the vertex at stack [i] and sector [j]. *)
Definition grid_vertex (i j : nat) : list F :=
  let stackAngle := half_pi_minus (of_int i *! pi_over sphereStack) in
  let sectorAngle := of_int j *! two_pi_over sphereSlice in
  let x := cosf stackAngle *! cosf sectorAngle in
  let y := cosf stackAngle *! sinf sectorAngle in
  let z := sinf stackAngle in
  [x; y; z; x; y; z].

(** The number of the vertex at stack [i] and sector [j]. *)
Definition grid_index (i j : nat) : Z :=
  (Z.of_nat i * (Z.of_nat sphereSlice + 1) + Z.of_nat j)%Z.

(** The triangles that [index_row] gives for the cell at stack [i] and
    sector [j]. *)
Definition cell_triangles (i j : nat) : list Z :=
  (if negb (Nat.eqb i 0)
   then [grid_index i j; grid_index (i + 1) j; grid_index i (j + 1)] else []) ++
  (if negb (Z.eqb (Z.of_nat i) (Z.of_nat sphereStack - 1))
   then [grid_index i (j + 1); grid_index (i + 1) j; grid_index (i + 1) (j + 1)]
   else []).
End Mesh.

(** One of the four coordinates is not a number. *)
Definition has_nan (v : Vec4 spec_float) : bool :=
  B32.is_nan (vx v) || B32.is_nan (vy v) || B32.is_nan (vz v) || B32.is_nan (vw v).

(** The linear momentum of sphere [j] and cloth particle [i]. *)
Definition momentum_cloth {F : Type} `{Scalar F} (P C : Particles F) (j i : nat)
  : Vec4 F :=
  mass P j *^ velocity P j +^ mass C i *^ velocity C i.

(** Twice the kinetic energy of body [j] of [P] and body [i] of [C]. *)
Definition kinetic {F : Type} `{Scalar F} (P C : Particles F) (j i : nat) : F :=
  mass P j *! squaredNorm (velocity P j) +! mass C i *! squaredNorm (velocity C i).

(** ** The buffers of the renderer *)

(** Of the two instance buffers only sizes in bytes are modelled:
    [offsets_bytes] and [sizes_bytes] are the sizes last given to
    [offsets.allocate] and to [sizes.allocate], and a load is the number of
    bytes given to [load], which starts at offset zero.  The sizes are
    natural numbers; a [float] has four bytes. *)
Record Buffers := mkBuffers { offsets_bytes : nat; sizes_bytes : nat }.

Definition sizeof_float : nat := 4.

Section Renderer.
Context {F : Type} `{Scalar F}.
Variable cfg : Configs F.
Variable uninit : Particle F.

(** Lines 74-75 of the constructor. *)
Definition initBuffers : Buffers := mkBuffers (4 * sizeof_float) sizeof_float.

(** Lines 57-62: the allocations of [addSphere], on the object before the
    call. *)
Definition addSphere_allocate (s : Spheres F) (b : Buffers) : Buffers :=
  if Nat.eqb (sphereCount s) (getCapacity (_particles s))
  then mkBuffers (8 * sphereCount s * sizeof_float) (2 * sphereCount s * sizeof_float)
  else b.

(** Line 69: the number of bytes that [addSphere] loads into [sizes], on
    the object after the call. *)
Definition addSphere_load (s : Spheres F) : nat := length (_radius s) * sizeof_float.

(** Line 110: the number of bytes that [draw] loads into [offsets]. *)
Definition draw_load (s : Spheres F) : nat := 4 * sphereCount s * sizeof_float.

(** The object and the sizes of its buffers after a sequence of calls of
    [addSphere] on a new object. *)
Definition render_all (calls : list (Vec4 F * F)) : Spheres F * Buffers :=
  foldl (fun sb c => (addSphere cfg uninit c.1 c.2 sb.1, addSphere_allocate sb.1 sb.2))
    (initSpheres uninit, initBuffers) calls.
End Renderer.

(** ** More arithmetic for the examples *)

(** The real sine and cosine, for the mesh in exact arithmetic. *)
Module ExactMath.
Import Exact.

#[export] Instance float_math : FloatMath R := {|
  cosf := cos;
  sinf := sin;
  of_int := INR;
  two_pi_over := fun n => (PI * 2 / INR n)%R;
  pi_over := fun n => (PI / INR n)%R;
  half_pi_minus := fun x => (PI / 2 - x)%R
|}.
End ExactMath.

(** * Properties *)

(** ** Loops *)

Section Loops.
Context {St : Type}.

Lemma for_loop_foldl (body : nat -> St -> St) n lo s :
  for_loop n lo body s = foldl (fun s k => body k s) s (seq lo n).
Proof. revert lo s. induction n as [|n IH]; intros lo s; simpl; [done|]. apply IH. Qed.

Lemma for_range_foldl (body : nat -> St -> St) lo hi s :
  for_range lo hi body s = foldl (fun s k => body k s) s (seq lo (hi - lo)).
Proof. apply for_loop_foldl. Qed.

Lemma foldl_bind {A B} (f : St -> B -> St) (g : A -> list B) (l : list A) s :
  foldl f s (l ≫= g) = foldl (fun s a => foldl f s (g a)) s l.
Proof.
  revert s. induction l as [|a l IH]; intros s; simpl; [done|].
  by rewrite foldl_app, IH.
Qed.

Lemma foldl_fmap {A B} (f : St -> B -> St) (g : A -> B) (l : list A) s :
  foldl f s (g <$> l) = foldl (fun s a => f s (g a)) s l.
Proof. revert s. induction l as [|a l IH]; intros s; simpl; [done|]. apply IH. Qed.

Lemma foldl_ext {A} (f g : St -> A -> St) (l : list A) s :
  (forall s a, f s a = g s a) -> foldl f s l = foldl g s l.
Proof.
  intros Hfg. revert s. induction l as [|a l IH]; intros s; simpl; [done|].
  by rewrite Hfg, IH.
Qed.

Lemma foldl_invariant {A} (I : St -> Prop) (f : St -> A -> St) (l : list A) s :
  I s -> (forall s a, a ∈ l -> I s -> I (f s a)) -> I (foldl f s l).
Proof.
  revert s. induction l as [|a l IH]; intros s Hs Hf; simpl; [done|].
  apply IH.
  - apply Hf; [left|done].
  - intros s' a' Ha'. apply Hf. by right.
Qed.
End Loops.

Lemma elem_of_pairs n j i : (j, i) ∈ pairs n <-> j < i < n.
Proof.
  unfold pairs. rewrite list_elem_of_bind. split.
  - intros (j' & Hi & Hj). apply list_elem_of_fmap in Hi as (i' & Heq & Hi).
    simplify_eq. apply elem_of_seq in Hi, Hj. lia.
  - intros Hji. exists j. split; [|apply elem_of_seq; lia].
    apply list_elem_of_fmap. exists i. split; [done|]. apply elem_of_seq. lia.
Qed.

Lemma NoDup_pairs n : NoDup (pairs n).
Proof.
  unfold pairs. apply NoDup_bind.
  - intros j1 j2 p _ _ H1 H2.
    apply list_elem_of_fmap in H1 as (? & -> & _).
    apply list_elem_of_fmap in H2 as (? & ? & _). by simplify_eq.
  - intros j _. apply NoDup_fmap; [|apply NoDup_seq]. by intros ?? [=].
  - apply NoDup_seq.
Qed.

Lemma elem_of_cloth_pairs n m j i : (j, i) ∈ cloth_pairs n m <-> j < n /\ i < m.
Proof.
  unfold cloth_pairs. rewrite list_elem_of_bind. split.
  - intros (j' & Hi & Hj). apply list_elem_of_fmap in Hi as (i' & Heq & Hi).
    simplify_eq. apply elem_of_seq in Hi, Hj. lia.
  - intros Hji. exists j. split; [|apply elem_of_seq; lia].
    apply list_elem_of_fmap. exists i. split; [done|]. apply elem_of_seq. lia.
Qed.

Lemma NoDup_cloth_pairs n m : NoDup (cloth_pairs n m).
Proof.
  unfold cloth_pairs. apply NoDup_bind.
  - intros j1 j2 p _ _ H1 H2.
    apply list_elem_of_fmap in H1 as (? & -> & _).
    apply list_elem_of_fmap in H2 as (? & ? & _). by simplify_eq.
  - intros j _. apply NoDup_fmap; [|apply NoDup_seq]. by intros ?? [=].
  - apply NoDup_seq.
Qed.

Section Enumeration.
Context {F : Type} `{Scalar F}.
Variable cfg : Configs F.

Lemma collide_foldl (s : Spheres F) :
  collide cfg s
  = foldl (fun s ji => collide_pair cfg ji.1 ji.2 s) s (pairs (sphereCount s)).
Proof.
  unfold collide, pairs. rewrite for_range_foldl, foldl_bind, Nat.sub_0_r.
  apply foldl_ext. intros s' j. rewrite for_range_foldl, foldl_fmap. done.
Qed.

Lemma collide_cloth_foldl (s : Spheres F) (cloth : Cloth F) :
  collide_cloth cfg s cloth
  = foldl (fun sc ji => collide_cloth_pair cfg ji.1 ji.2 sc) (s, cloth)
      (cloth_pairs (sphereCount s) (particlesPerEdge cfg * particlesPerEdge cfg)).
Proof.
  unfold collide_cloth, cloth_pairs. rewrite for_range_foldl, foldl_bind, Nat.sub_0_r.
  apply foldl_ext. intros s' j. rewrite for_range_foldl, foldl_fmap, Nat.sub_0_r. done.
Qed.
End Enumeration.

(** ** Reads after writes *)

Section Buffer.
Context {F : Type} `{Scalar F}.
Context {A : Type}.
Implicit Types (P : Particles F) (g : Particle F -> Particle F) (pi : Particle F -> A).

Lemma field_alter_same pi g (d : A) k k' P :
  (forall p, pi (g p) = pi p) ->
  from_option pi d (alter g k P !! k') = from_option pi d (P !! k').
Proof.
  intros Hg. destruct (decide (k = k')) as [->|Hne].
  - rewrite list_lookup_alter_eq. destruct (P !! k'); simpl; auto.
  - by rewrite list_lookup_alter_ne.
Qed.

Lemma field_alter_ne pi g (d : A) k k' P :
  k <> k' -> from_option pi d (alter g k P !! k') = from_option pi d (P !! k').
Proof. intros Hne. by rewrite list_lookup_alter_ne. Qed.

Lemma field_alter_eq pi g (d : A) k P p :
  P !! k = Some p -> from_option pi d (alter g k P !! k) = pi (g p).
Proof. intros Hp. by rewrite list_lookup_alter_eq, Hp. Qed.
End Buffer.

(** A write to one field leaves the reads of the other fields as they
    were. *)
Ltac other_field :=
  intros;
  cbv delta [position velocity acceleration rotation mass inverseMass
             add_position sub_position add_velocity add_rotation];
  apply field_alter_same; intros []; reflexivity.

Section BufferFields.
Context {F : Type} `{Scalar F}.
Implicit Types (P : Particles F) (d : Vec4 F).

Lemma position_add_velocity k d P k' : position (add_velocity k d P) k' = position P k'.
Proof. other_field. Qed.
Lemma position_add_rotation k d P k' : position (add_rotation k d P) k' = position P k'.
Proof. other_field. Qed.
Lemma velocity_add_rotation k d P k' : velocity (add_rotation k d P) k' = velocity P k'.
Proof. other_field. Qed.
Lemma velocity_add_position k d P k' : velocity (add_position k d P) k' = velocity P k'.
Proof. other_field. Qed.
Lemma velocity_sub_position k d P k' : velocity (sub_position k d P) k' = velocity P k'.
Proof. other_field. Qed.
Lemma rotation_add_velocity k d P k' : rotation (add_velocity k d P) k' = rotation P k'.
Proof. other_field. Qed.
Lemma rotation_add_position k d P k' : rotation (add_position k d P) k' = rotation P k'.
Proof. other_field. Qed.
Lemma rotation_sub_position k d P k' : rotation (sub_position k d P) k' = rotation P k'.
Proof. other_field. Qed.

Lemma mass_add_velocity k d P k' : mass (add_velocity k d P) k' = mass P k'.
Proof. other_field. Qed.
Lemma mass_add_rotation k d P k' : mass (add_rotation k d P) k' = mass P k'.
Proof. other_field. Qed.
Lemma mass_add_position k d P k' : mass (add_position k d P) k' = mass P k'.
Proof. other_field. Qed.
Lemma mass_sub_position k d P k' : mass (sub_position k d P) k' = mass P k'.
Proof. other_field. Qed.

Lemma inverseMass_add_velocity k d P k' :
  inverseMass (add_velocity k d P) k' = inverseMass P k'.
Proof. other_field. Qed.
Lemma inverseMass_add_rotation k d P k' :
  inverseMass (add_rotation k d P) k' = inverseMass P k'.
Proof. other_field. Qed.
Lemma inverseMass_add_position k d P k' :
  inverseMass (add_position k d P) k' = inverseMass P k'.
Proof. other_field. Qed.
Lemma inverseMass_sub_position k d P k' :
  inverseMass (sub_position k d P) k' = inverseMass P k'.
Proof. other_field. Qed.

Lemma acceleration_add_velocity k d P k' :
  acceleration (add_velocity k d P) k' = acceleration P k'.
Proof. other_field. Qed.
Lemma acceleration_add_rotation k d P k' :
  acceleration (add_rotation k d P) k' = acceleration P k'.
Proof. other_field. Qed.
Lemma acceleration_add_position k d P k' :
  acceleration (add_position k d P) k' = acceleration P k'.
Proof. other_field. Qed.
Lemma acceleration_sub_position k d P k' :
  acceleration (sub_position k d P) k' = acceleration P k'.
Proof. other_field. Qed.

(** The field that is written. *)
Lemma velocity_add_velocity k d P :
  k < length P -> velocity (add_velocity k d P) k = velocity P k +^ d.
Proof.
  intros Hk. destruct (lookup_lt_is_Some_2 P k Hk) as [p Hp].
  unfold velocity, add_velocity. rewrite (field_alter_eq _ _ _ _ _ p), Hp; done.
Qed.

Lemma velocity_add_velocity_ne k d P k' :
  k <> k' -> velocity (add_velocity k d P) k' = velocity P k'.
Proof. intros. by apply field_alter_ne. Qed.

Lemma position_add_position k d P :
  k < length P -> position (add_position k d P) k = position P k +^ d.
Proof.
  intros Hk. destruct (lookup_lt_is_Some_2 P k Hk) as [p Hp].
  unfold position, add_position. rewrite (field_alter_eq _ _ _ _ _ p), Hp; done.
Qed.

Lemma position_add_position_ne k d P k' :
  k <> k' -> position (add_position k d P) k' = position P k'.
Proof. intros. by apply field_alter_ne. Qed.

Lemma position_sub_position k d P :
  k < length P -> position (sub_position k d P) k = position P k -^ d.
Proof.
  intros Hk. destruct (lookup_lt_is_Some_2 P k Hk) as [p Hp].
  unfold position, sub_position. rewrite (field_alter_eq _ _ _ _ _ p), Hp; done.
Qed.

Lemma position_sub_position_ne k d P k' :
  k <> k' -> position (sub_position k d P) k' = position P k'.
Proof. intros. by apply field_alter_ne. Qed.

Lemma length_add_velocity k d P : length (add_velocity k d P) = length P.
Proof. apply length_alter. Qed.
Lemma length_add_rotation k d P : length (add_rotation k d P) = length P.
Proof. apply length_alter. Qed.
Lemma length_add_position k d P : length (add_position k d P) = length P.
Proof. apply length_alter. Qed.
Lemma length_sub_position k d P : length (sub_position k d P) = length P.
Proof. apply length_alter. Qed.

(** A write at [k] leaves the other slots as they were. *)
Lemma lookup_add_velocity_ne k d P k' : k <> k' -> add_velocity k d P !! k' = P !! k'.
Proof. apply list_lookup_alter_ne. Qed.
Lemma lookup_add_rotation_ne k d P k' : k <> k' -> add_rotation k d P !! k' = P !! k'.
Proof. apply list_lookup_alter_ne. Qed.
Lemma lookup_add_position_ne k d P k' : k <> k' -> add_position k d P !! k' = P !! k'.
Proof. apply list_lookup_alter_ne. Qed.
Lemma lookup_sub_position_ne k d P k' : k <> k' -> sub_position k d P !! k' = P !! k'.
Proof. apply list_lookup_alter_ne. Qed.
End BufferFields.

(** ** The shape of the response to one contact *)

(** Moves the local definitions of a function body, one by one, from under
    the predicate [Psi] into the context. *)
Ltac lets_out Psi :=
  repeat lazymatch goal with
  | |- Psi (let x := ?a in @?f x) =>
      change (let x := a in Psi (f x)); intro; cbv beta
  end.

Section Shape.
Context {F : Type} `{Scalar F}.
Variable cfg : Configs F.
Implicit Types (s : Spheres F) (cloth : Cloth F).

(** Lines 190-197: the two velocities receive the impulse. *)
Lemma respond_after_impulse s j i :
  let P := _particles s in
  let n := normalized (position P i -^ position P j) in
  let v1 := dot n (velocity P j) *^ n in
  let v2 := dot n (velocity P i) *^ n in
  let m1 := mass P j in
  let m2 := mass P i in
  let v1_after :=
    (m1 *^ v1 +^ m2 *^ v2 +^ (m2 *! lit 8 10) *^ (v2 -^ v1)) ^/ (m1 +! m2) in
  let v2_after :=
    (m1 *^ v1 +^ m2 *^ v2 +^ (m1 *! lit 8 10) *^ (v1 -^ v2)) ^/ (m1 +! m2) in
  after_impulse (respond cfg s j i)
  = add_velocity i (-^ v2 +^ v2_after) (add_velocity j (-^ v1 +^ v1_after) P).
Proof. reflexivity. Qed.

(** Lines 199-219 write velocities and rotations of [j] and [i], and
    nothing else. *)
Lemma respond_velocity_steps (Phi : Particles F -> Prop) s j i :
  (forall k d P, k = j \/ k = i -> Phi P -> Phi (add_velocity k d P)) ->
  (forall k d P, k = j \/ k = i -> Phi P -> Phi (add_rotation k d P)) ->
  Phi (after_impulse (respond cfg s j i)) ->
  Phi (before_correction (respond cfg s j i)).
Proof.
  intros Hv Hr.
  set (Psi := fun t : Trace (Particles F) =>
                Phi (after_impulse t) -> Phi (before_correction t)).
  change (Psi (respond cfg s j i)). cbv beta delta [respond]. lets_out Psi.
  cbv beta iota delta [Psi after_impulse before_correction].
  intros H0. unfold P_impulse in H0.
  lazymatch type of H0 with Phi ?Q => clearbody Q end.
  repeat first [exact H0 | apply Hv; [tauto|] | apply Hr; [tauto|]].
Qed.

(** Lines 221-224: the positional correction. *)
Lemma respond_after_correction s j i :
  let P := _particles s in
  let Pb := before_correction (respond cfg s j i) in
  let penetration :=
    radius s j +! radius s i -! abs (norm (position Pb i -^ position Pb j)) in
  let correction := penetration *^ normalized (position P i -^ position P j) ^* lit 15 100 in
  after_correction (respond cfg s j i)
  = sub_position j correction (add_position i correction Pb).
Proof. reflexivity. Qed.

Lemma respond_closed (Phi : Particles F -> Prop) s j i :
  (forall k d P, k = j \/ k = i -> Phi P -> Phi (add_velocity k d P)) ->
  (forall k d P, k = j \/ k = i -> Phi P -> Phi (add_rotation k d P)) ->
  (forall d P, Phi P -> Phi (add_position i d P)) ->
  (forall d P, Phi P -> Phi (sub_position j d P)) ->
  Phi (_particles s) ->
  Phi (after_impulse (respond cfg s j i)) /\
  Phi (before_correction (respond cfg s j i)) /\
  Phi (after_correction (respond cfg s j i)).
Proof.
  intros Hv Hr Ha Hs H0.
  assert (Phi (after_impulse (respond cfg s j i))) as H1.
  { rewrite respond_after_impulse. auto. }
  assert (Phi (before_correction (respond cfg s j i))) as H2.
  { by apply respond_velocity_steps. }
  repeat split; [done..|]. rewrite respond_after_correction. auto.
Qed.

(** The same for the contact of sphere [j] with cloth particle [i]. *)
Lemma respond_cloth_after_impulse s cloth j i :
  let P := _particles s in
  let C := particles cloth in
  let n := normalized (position C i -^ position P j) in
  let v1 := dot n (velocity P j) *^ n in
  let v2 := dot n (velocity C i) *^ n in
  let m1 := mass P j in
  let m2 := mass C i in
  let v_after := (m1 *^ v1 +^ m2 *^ v2) ^/ (m1 +! m2) in
  after_impulse (respond_cloth cfg s cloth j i)
  = (add_velocity j (-^ v1 +^ v_after) P, add_velocity i (-^ v2 +^ v_after) C).
Proof. reflexivity. Qed.

Lemma respond_cloth_velocity_steps (PhiP PhiC : Particles F -> Prop) s cloth j i :
  (forall d P, PhiP P -> PhiP (add_velocity j d P)) ->
  (forall d P, PhiP P -> PhiP (add_rotation j d P)) ->
  (forall d C, PhiC C -> PhiC (add_velocity i d C)) ->
  PhiP (after_impulse (respond_cloth cfg s cloth j i)).1 ->
  PhiC (after_impulse (respond_cloth cfg s cloth j i)).2 ->
  PhiP (before_correction (respond_cloth cfg s cloth j i)).1 /\
  PhiC (before_correction (respond_cloth cfg s cloth j i)).2.
Proof.
  intros Hv Hr Hc.
  set (Psi := fun t : Trace (Particles F * Particles F) =>
                PhiP (after_impulse t).1 -> PhiC (after_impulse t).2 ->
                PhiP (before_correction t).1 /\ PhiC (before_correction t).2).
  change (Psi (respond_cloth cfg s cloth j i)).
  cbv beta delta [respond_cloth]. lets_out Psi.
  cbv beta iota delta [Psi after_impulse before_correction fst snd].
  intros HP HC. unfold PC_impulse in HP, HC. simpl in HP, HC.
  lazymatch type of HP with PhiP ?Q => clearbody Q end.
  lazymatch type of HC with PhiC ?Q => clearbody Q end.
  split.
  - repeat first [exact HP | apply Hv | apply Hr].
  - repeat first [exact HC | apply Hc].
Qed.

Lemma respond_cloth_after_correction s cloth j i :
  let P := _particles s in
  let C := particles cloth in
  let Pb := (before_correction (respond_cloth cfg s cloth j i)).1 in
  let Cb := (before_correction (respond_cloth cfg s cloth j i)).2 in
  let penetration := radius s j -! abs (norm (position Cb i -^ position Pb j)) in
  let correction := penetration *^ normalized (position C i -^ position P j) ^* lit 15 100 in
  after_correction (respond_cloth cfg s cloth j i)
  = (sub_position j correction Pb, add_position i correction Cb).
Proof. reflexivity. Qed.

Lemma respond_cloth_closed (PhiP PhiC : Particles F -> Prop) s cloth j i :
  (forall d P, PhiP P -> PhiP (add_velocity j d P)) ->
  (forall d P, PhiP P -> PhiP (add_rotation j d P)) ->
  (forall d P, PhiP P -> PhiP (sub_position j d P)) ->
  (forall d C, PhiC C -> PhiC (add_velocity i d C)) ->
  (forall d C, PhiC C -> PhiC (add_position i d C)) ->
  PhiP (_particles s) -> PhiC (particles cloth) ->
  let t := respond_cloth cfg s cloth j i in
  (PhiP (after_impulse t).1 /\ PhiC (after_impulse t).2) /\
  (PhiP (before_correction t).1 /\ PhiC (before_correction t).2) /\
  (PhiP (after_correction t).1 /\ PhiC (after_correction t).2).
Proof.
  intros Hv Hr Hs Hcv Hcp HP HC t.
  assert (PhiP (after_impulse t).1 /\ PhiC (after_impulse t).2) as [H1 H1'].
  { unfold t. rewrite respond_cloth_after_impulse. simpl. auto. }
  assert (PhiP (before_correction t).1 /\ PhiC (before_correction t).2) as [H2 H2'].
  { by apply respond_cloth_velocity_steps. }
  repeat split; [done..| |];
    unfold t; rewrite respond_cloth_after_correction; simpl; auto.
Qed.
End Shape.

(** ** What a collision leaves unchanged *)

Arguments collide_pair : simpl never.
Arguments collide_cloth_pair : simpl never.
Arguments respond : simpl never.
Arguments respond_cloth : simpl never.

(** From here on the response is used through the lemmas above. *)
Opaque respond respond_cloth.

Section Frame.
Context {F : Type} `{Scalar F}.
Variable cfg : Configs F.
Implicit Types (s : Spheres F) (cloth : Cloth F) (P C : Particles F).

(** [P'] has the slots of [P], with the same mass, inverse mass and
    acceleration, and differs from [P] at most in the slots [J]. *)
Local Abbreviation framed J P P' :=
  (length P' = length P /\
   (forall k, mass P'%list k = mass P%list k /\
              inverseMass P'%list k = inverseMass P%list k /\
              acceleration P'%list k = acceleration P%list k) /\
   (forall k, ~ J k -> P'%list !! k = P%list !! k)).

Lemma framed_refl (J : nat -> Prop) P : framed J P P.
Proof. done. Qed.

Lemma framed_add_velocity (J : nat -> Prop) P P' k d :
  J k -> framed J P P' -> framed J P (add_velocity k d P').
Proof.
  intros Hk (Hl & Hf & Hne). split_and!.
  - by rewrite length_add_velocity.
  - intros k'. by rewrite mass_add_velocity, inverseMass_add_velocity,
      acceleration_add_velocity.
  - intros k' Hk'. rewrite lookup_add_velocity_ne; [auto|]. by intros ->.
Qed.

Lemma framed_add_rotation (J : nat -> Prop) P P' k d :
  J k -> framed J P P' -> framed J P (add_rotation k d P').
Proof.
  intros Hk (Hl & Hf & Hne). split_and!.
  - by rewrite length_add_rotation.
  - intros k'. by rewrite mass_add_rotation, inverseMass_add_rotation,
      acceleration_add_rotation.
  - intros k' Hk'. rewrite lookup_add_rotation_ne; [auto|]. by intros ->.
Qed.

Lemma framed_add_position (J : nat -> Prop) P P' k d :
  J k -> framed J P P' -> framed J P (add_position k d P').
Proof.
  intros Hk (Hl & Hf & Hne). split_and!.
  - by rewrite length_add_position.
  - intros k'. by rewrite mass_add_position, inverseMass_add_position,
      acceleration_add_position.
  - intros k' Hk'. rewrite lookup_add_position_ne; [auto|]. by intros ->.
Qed.

Lemma framed_sub_position (J : nat -> Prop) P P' k d :
  J k -> framed J P P' -> framed J P (sub_position k d P').
Proof.
  intros Hk (Hl & Hf & Hne). split_and!.
  - by rewrite length_sub_position.
  - intros k'. by rewrite mass_sub_position, inverseMass_sub_position,
      acceleration_sub_position.
  - intros k' Hk'. rewrite lookup_sub_position_ne; [auto|]. by intros ->.
Qed.

Lemma respond_framed s j i :
  let t := respond cfg s j i in
  let J := fun k => k = j \/ k = i in
  framed J (_particles s) (after_impulse t) /\
  framed J (_particles s) (before_correction t) /\
  framed J (_particles s) (after_correction t).
Proof.
  intros t J.
  apply (respond_closed cfg (fun P' => framed J (_particles s) P')).
  - intros k d P' Hk. by apply framed_add_velocity.
  - intros k d P' Hk. by apply framed_add_rotation.
  - intros d P'. apply framed_add_position. by right.
  - intros d P'. apply framed_sub_position. by left.
  - done.
Qed.

Lemma respond_cloth_framed s cloth j i :
  let t := respond_cloth cfg s cloth j i in
  (framed (eq j) (_particles s) (after_impulse t).1 /\
   framed (eq i) (particles cloth) (after_impulse t).2) /\
  (framed (eq j) (_particles s) (before_correction t).1 /\
   framed (eq i) (particles cloth) (before_correction t).2) /\
  (framed (eq j) (_particles s) (after_correction t).1 /\
   framed (eq i) (particles cloth) (after_correction t).2).
Proof.
  apply (respond_cloth_closed cfg
           (fun P' => framed (eq j) (_particles s) P')
           (fun C' => framed (eq i) (particles cloth) C')).
  - intros d P'. by apply framed_add_velocity.
  - intros d P'. by apply framed_add_rotation.
  - intros d P'. by apply framed_sub_position.
  - intros d P'. by apply framed_add_velocity.
  - intros d P'. by apply framed_add_position.
  - done.
  - done.
Qed.

(** The cloth's rotations are never written. *)
Lemma respond_cloth_rotation s cloth j i k :
  rotation (after_correction (respond_cloth cfg s cloth j i)).2 k
  = rotation (particles cloth) k.
Proof.
  apply (respond_cloth_closed cfg (fun _ => True)
           (fun C' => rotation C' k = rotation (particles cloth) k)); try done.
  - intros d C' <-. apply rotation_add_velocity.
  - intros d C' <-. apply rotation_add_position.
Qed.

(** One pair of spheres. *)
Lemma collide_pair_frame j i s :
  let s' := collide_pair cfg j i s in
  sphereCount s' = sphereCount s /\ _radius s' = _radius s /\
  length (_particles s') = length (_particles s) /\
  (forall k, mass (_particles s') k = mass (_particles s) k /\
             inverseMass (_particles s') k = inverseMass (_particles s) k /\
             acceleration (_particles s') k = acceleration (_particles s) k) /\
  (forall k, ((Nat.eqb k j || Nat.eqb k i) && touching s j i) = false ->
             _particles s' !! k = _particles s !! k).
Proof.
  unfold collide_pair. destruct (touching s j i); simpl; [|done].
  destruct (respond_framed s j i) as (_ & _ & Hl & Hf & Hne).
  split_and!; try done.
  intros k Hk. apply Hne. rewrite andb_true_r in Hk.
  apply orb_false_iff in Hk as [?%Nat.eqb_neq ?%Nat.eqb_neq]. tauto.
Qed.

(** The pairs of a list, in order. *)
Lemma collide_pairs_frame l s :
  let s' := foldl (fun s ji => collide_pair cfg ji.1 ji.2 s) s l in
  sphereCount s' = sphereCount s /\ _radius s' = _radius s /\
  length (_particles s') = length (_particles s) /\
  (forall k, mass (_particles s') k = mass (_particles s) k /\
             inverseMass (_particles s') k = inverseMass (_particles s) k /\
             acceleration (_particles s') k = acceleration (_particles s) k) /\
  (forall k, involved cfg k l s = false -> _particles s' !! k = _particles s !! k).
Proof.
  revert s. induction l as [|[j i] l IH]; intros s; simpl; [done|].
  destruct (IH (collide_pair cfg j i s)) as (Hc & Hr & Hl & Hf & Hne).
  destruct (collide_pair_frame j i s) as (Hc' & Hr' & Hl' & Hf' & Hne').
  split_and!; try congruence.
  - intros k. destruct (Hf k) as (-> & -> & ->). apply Hf'.
  - intros k [Hk1 Hk2]%orb_false_iff. rewrite Hne, Hne'; done.
Qed.

(** One sphere and one cloth particle. *)
Lemma collide_cloth_pair_frame j i s cloth :
  let sc' := collide_cloth_pair cfg j i (s, cloth) in
  let P := _particles s in
  let C := particles cloth in
  let P' := _particles sc'.1 in
  let C' := particles sc'.2 in
  sphereCount sc'.1 = sphereCount s /\ _radius sc'.1 = _radius s /\
  length P' = length P /\ length C' = length C /\
  (forall k, mass P' k = mass P k /\ inverseMass P' k = inverseMass P k /\
             acceleration P' k = acceleration P k) /\
  (forall k, mass C' k = mass C k /\ inverseMass C' k = inverseMass C k /\
             acceleration C' k = acceleration C k /\ rotation C' k = rotation C k) /\
  (forall k, (Nat.eqb k j && touching_cloth s cloth j i) = false -> P' !! k = P !! k) /\
  (forall k, (Nat.eqb k i && touching_cloth s cloth j i) = false -> C' !! k = C !! k).
Proof.
  unfold collide_cloth_pair. destruct (touching_cloth s cloth j i);
    [|simpl; split_and!; done].
  pose proof (respond_cloth_rotation s cloth j i) as Hrot.
  destruct (respond_cloth_framed s cloth j i)
    as (_ & _ & (Hl & Hf & Hne) & (Hl' & Hf' & Hne')).
  destruct (after_correction (respond_cloth cfg s cloth j i)) as [P' C'].
  simpl in *. split_and!; try done.
  - intros k. destruct (Hf' k) as (? & ? & ?). auto.
  - intros k Hk. apply Hne. rewrite andb_true_r in Hk.
    apply Nat.eqb_neq in Hk. congruence.
  - intros k Hk. apply Hne'. rewrite andb_true_r in Hk.
    apply Nat.eqb_neq in Hk. congruence.
Qed.

Lemma collide_cloth_pairs_frame l s cloth :
  let sc' := foldl (fun sc ji => collide_cloth_pair cfg ji.1 ji.2 sc) (s, cloth) l in
  let P := _particles s in
  let C := particles cloth in
  let P' := _particles sc'.1 in
  let C' := particles sc'.2 in
  sphereCount sc'.1 = sphereCount s /\ _radius sc'.1 = _radius s /\
  length P' = length P /\ length C' = length C /\
  (forall k, mass P' k = mass P k /\ inverseMass P' k = inverseMass P k /\
             acceleration P' k = acceleration P k) /\
  (forall k, mass C' k = mass C k /\ inverseMass C' k = inverseMass C k /\
             acceleration C' k = acceleration C k /\ rotation C' k = rotation C k) /\
  (forall k, involved_cloth cfg (inl k) l (s, cloth) = false -> P' !! k = P !! k) /\
  (forall k, involved_cloth cfg (inr k) l (s, cloth) = false -> C' !! k = C !! k).
Proof.
  revert s cloth. induction l as [|[j i] l IH]; intros s cloth; simpl;
    [split_and!; done|].
  pose proof (collide_cloth_pair_frame j i s cloth) as Hpair.
  destruct (collide_cloth_pair cfg j i (s, cloth)) as [s1 cloth1] eqn:Heq.
  simpl in Hpair. destruct Hpair as (Hc' & Hr' & Hl' & Hm' & Hf' & Hg' & Hne' & Hme').
  destruct (IH s1 cloth1) as (Hc & Hr & Hl & Hm & Hf & Hg & Hne & Hme).
  split_and!; try congruence.
  - intros k. destruct (Hf k) as (-> & -> & ->). apply Hf'.
  - intros k. destruct (Hg k) as (-> & -> & -> & ->). apply Hg'.
  - intros k [Hk1 Hk2]%orb_false_iff. rewrite Hne, Hne'; done.
  - intros k [Hk1 Hk2]%orb_false_iff. rewrite Hme, Hme'; done.
Qed.
End Frame.

(** ** Pairs that are apart *)

Section Apart.
Context {F : Type} `{Scalar F}.
Variable cfg : Configs F.
Implicit Types (s : Spheres F) (cloth : Cloth F).

Lemma collide_pair_skip j i s : touching s j i = false -> collide_pair cfg j i s = s.
Proof. unfold collide_pair. by intros ->. Qed.

Lemma collide_cloth_pair_skip j i s cloth :
  touching_cloth s cloth j i = false ->
  collide_cloth_pair cfg j i (s, cloth) = (s, cloth).
Proof. unfold collide_cloth_pair. by intros ->. Qed.

Lemma foldl_skip {St A} (f : St -> A -> St) (l : list A) (s : St) :
  (forall a, a ∈ l -> f s a = s) -> foldl f s l = s.
Proof.
  induction l as [|a l IH]; intros Hf; simpl; [done|].
  rewrite Hf by left. apply IH. intros a' Ha'. apply Hf. by right.
Qed.
End Apart.

(** ** Adding spheres *)

Section AddSphere.
Context {F : Type} `{Scalar F}.
Variable cfg : Configs F.
Variable uninit : Particle F.
Implicit Types (s : Spheres F) (pos : Vec4 F) (size : F).

Lemma addSphere_count pos size s :
  sphereCount (addSphere cfg uninit pos size s) = S (sphereCount s).
Proof. unfold addSphere. by destruct (Nat.eqb _ _). Qed.

Lemma addSphere_capacity pos size s :
  getCapacity (_particles (addSphere cfg uninit pos size s))
  = if Nat.eqb (sphereCount s) (getCapacity (_particles s))
    then sphereCount s * 2 else getCapacity (_particles s).
Proof.
  unfold addSphere, getCapacity. destruct (Nat.eqb _ _); simpl;
    rewrite !length_alter; [apply length_resize|done].
Qed.

Lemma addSphere_radius_length pos size s :
  length (_radius (addSphere cfg uninit pos size s))
  = if Nat.eqb (sphereCount s) (getCapacity (_particles s))
    then sphereCount s * 2 else length (_radius s).
Proof.
  unfold addSphere. destruct (Nat.eqb _ _); simpl;
    rewrite length_insert; [apply length_resize|done].
Qed.

(** The slots below the count are kept, also across a reallocation. *)
Lemma addSphere_lookup_old pos size s k :
  k < sphereCount s -> sphereCount s <= getCapacity (_particles s) ->
  _particles (addSphere cfg uninit pos size s) !! k = _particles s !! k.
Proof.
  intros Hk Hcap. unfold addSphere, getCapacity in *.
  destruct (Nat.eqb _ _); simpl; rewrite !list_lookup_alter_ne by lia; [|done].
  apply lookup_resize; lia.
Qed.

Lemma addSphere_radius_old pos size s k :
  k < sphereCount s ->
  radius (addSphere cfg uninit pos size s) k = radius s k.
Proof.
  intros Hk. unfold addSphere, radius.
  destruct (Nat.eqb _ _); simpl; rewrite list_lookup_insert_ne by lia; [|done].
  destruct (decide (k < length (_radius s))) as [Hlt|Hge].
  - rewrite lookup_resize by lia. done.
  - rewrite lookup_resize_new by lia.
    rewrite (lookup_ge_None_2 (_radius s) k) by lia. done.
Qed.

(** The new sphere is in slot [sphereCount], when that slot exists. *)
Lemma addSphere_lookup_new pos size s :
  let n := sphereCount s in
  let s' := addSphere cfg uninit pos size s in
  n < getCapacity (_particles s') -> n < length (_radius s') ->
  _radius s' !! n = Some size /\
  exists p, _particles s' !! n = Some p /\
    p_position p = pos /\ p_velocity p = vzero /\ p_acceleration p = vzero /\
    p_mass p = sphereDensity cfg *! size *! size *! size.
Proof.
  intros n s'. unfold s', addSphere, getCapacity. fold n.
  destruct (Nat.eqb _ _); simpl; rewrite !length_alter, length_insert;
    intros HP Hr; (split; [by apply list_lookup_insert_eq|]).
  - destruct (lookup_lt_is_Some_2 _ _ HP) as [p Hp].
    eexists. rewrite !list_lookup_alter_eq, Hp. simpl. eauto.
  - destruct (lookup_lt_is_Some_2 _ _ HP) as [p Hp].
    eexists. rewrite !list_lookup_alter_eq, Hp. simpl. eauto.
Qed.

Lemma add_all_snoc calls pos size :
  add_all cfg uninit (calls ++ [(pos, size)])
  = addSphere cfg uninit pos size (add_all cfg uninit calls).
Proof. unfold add_all. by rewrite foldl_app. Qed.

(** The invariant of the object: the count is within the buffers, which
    have at least one slot and the same length, and every sphere is stored
    as it was added. *)
Lemma add_all_invariant calls :
  let s := add_all cfg uninit calls in
  sphereCount s = length calls /\
  sphereCount s <= getCapacity (_particles s) /\
  1 <= getCapacity (_particles s) /\
  length (_radius s) = getCapacity (_particles s) /\
  forall k pos size, calls !! k = Some (pos, size) ->
    radius s k = size /\
    position (_particles s) k = pos /\
    mass (_particles s) k = sphereDensity cfg *! size *! size *! size.
Proof.
  induction calls as [|[pos size] calls IH] using rev_ind.
  { simpl. split_and!; try done. lia. }
  rewrite add_all_snoc. cbv zeta in *.
  set (s := add_all cfg uninit calls) in *.
  destruct IH as (Hn & Hcap & Hone & Hlen & Hold).
  pose proof (addSphere_capacity pos size s) as Hc.
  pose proof (addSphere_radius_length pos size s) as Hr.
  assert (sphereCount s < getCapacity (_particles (addSphere cfg uninit pos size s))
          /\ length (_radius (addSphere cfg uninit pos size s))
             = getCapacity (_particles (addSphere cfg uninit pos size s)))
    as [Hlt Hlen'].
  { rewrite Hc, Hr. destruct (Nat.eqb_spec (sphereCount s) (getCapacity (_particles s)));
      lia. }
  split_and!.
  - rewrite addSphere_count, length_app. simpl. lia.
  - rewrite addSphere_count. lia.
  - lia.
  - done.
  - intros k pos' size' Hk. apply lookup_app_Some in Hk as [Hk|[Hge Hk]].
    + assert (k < sphereCount s) as Hkn.
      { rewrite Hn. by apply lookup_lt_Some in Hk. }
      destruct (Hold _ _ _ Hk) as (Hrad & Hpos & Hmass).
      rewrite addSphere_radius_old by done.
      unfold position, mass in *. rewrite addSphere_lookup_old by done. done.
    + apply list_lookup_singleton_Some in Hk as [Hk0 [= <- <-]].
      assert (k = sphereCount s) as -> by lia.
      destruct (addSphere_lookup_new pos size s) as (Hrad & p & Hp & Hpos & _ & _ & Hm);
        [done|lia|].
      unfold radius, position, mass. rewrite Hrad, Hp. done.
Qed.
End AddSphere.

(** ** The claims that hold of every arithmetic *)

Section Generic.
Context {F : Type} `{Scalar F}.
Variable cfg : Configs F.
Implicit Types (s : Spheres F) (cloth : Cloth F).

(** C6.  The collision operations write velocities, positions and
    rotations and nothing else.  After [Spheres::collide()] the count, the
    radii and the number of slots are the same, every slot has the mass,
    inverse mass and acceleration it had, and a sphere that took part in no
    contact is unchanged as a whole.  After the collision with a cloth the
    same holds of the spheres and of the cloth particles, whose rotations
    are unchanged as well. *)
Theorem collide_writes_only_velocity_position_rotation s cloth :
  let s' := collide cfg s in
  let sc := collide_cloth cfg s cloth in
  let P := _particles s in
  let C := particles cloth in
  (sphereCount s' = sphereCount s /\ _radius s' = _radius s /\
   length (_particles s') = length P /\
   (forall k, mass (_particles s') k = mass P k /\
              inverseMass (_particles s') k = inverseMass P k /\
              acceleration (_particles s') k = acceleration P k) /\
   (forall k, involved cfg k (pairs (sphereCount s)) s = false ->
              _particles s' !! k = P !! k)) /\
  (sphereCount sc.1 = sphereCount s /\ _radius sc.1 = _radius s /\
   length (_particles sc.1) = length P /\ length (particles sc.2) = length C /\
   (forall k, mass (_particles sc.1) k = mass P k /\
              inverseMass (_particles sc.1) k = inverseMass P k /\
              acceleration (_particles sc.1) k = acceleration P k) /\
   (forall k, mass (particles sc.2) k = mass C k /\
              inverseMass (particles sc.2) k = inverseMass C k /\
              acceleration (particles sc.2) k = acceleration C k /\
              rotation (particles sc.2) k = rotation C k) /\
   (forall k,
      involved_cloth cfg (inl k)
        (cloth_pairs (sphereCount s) (particlesPerEdge cfg * particlesPerEdge cfg))
        (s, cloth) = false ->
      _particles sc.1 !! k = P !! k) /\
   (forall k,
      involved_cloth cfg (inr k)
        (cloth_pairs (sphereCount s) (particlesPerEdge cfg * particlesPerEdge cfg))
        (s, cloth) = false ->
      particles sc.2 !! k = C !! k)).
Proof.
  intros s' sc P C. split.
  - unfold s'. rewrite collide_foldl. apply collide_pairs_frame.
  - unfold sc. rewrite collide_cloth_foldl. apply collide_cloth_pairs_frame.
Qed.

(** C8.  [addSphere] raises the count by one.  When the count equals the
    capacity, the particle buffer and the radius buffer are reallocated to
    twice the count, the spheres stored so far are kept, and the new sphere
    is written into the reallocated buffers; otherwise the capacity is
    unchanged. *)
Theorem addSphere_doubles_capacity (uninit : Particle F) (pos : Vec4 F) (size : F) s :
  let n := sphereCount s in
  let s' := addSphere cfg uninit pos size s in
  sphereCount s' = S n /\
  (n = getCapacity (_particles s) ->
     getCapacity (_particles s') = n * 2 /\
     length (_radius s') = n * 2 /\
     (forall k, k < n ->
        _particles s' !! k = _particles s !! k /\ radius s' k = radius s k) /\
     (0 < n ->
        radius s' n = size /\ position (_particles s') n = pos /\
        mass (_particles s') n = sphereDensity cfg *! size *! size *! size)) /\
  (n <> getCapacity (_particles s) ->
     getCapacity (_particles s') = getCapacity (_particles s) /\
     length (_radius s') = length (_radius s)).
Proof.
  intros n s'. unfold s', n.
  pose proof (addSphere_capacity cfg uninit pos size s) as Hc.
  pose proof (addSphere_radius_length cfg uninit pos size s) as Hr.
  split; [apply addSphere_count|]. split.
  - intros Heq. rewrite <- Heq, Nat.eqb_refl in Hc, Hr. split_and!; try done.
    + intros k Hk. split.
      * apply addSphere_lookup_old; [done|lia].
      * by apply addSphere_radius_old.
    + intros Hpos.
      destruct (addSphere_lookup_new cfg uninit pos size s)
        as (Hrad & p & Hp & Hpp & _ & _ & Hm); [lia..|].
      unfold radius, position, mass. rewrite Hrad, Hp. done.
  - intros Hne. apply Nat.eqb_neq in Hne. rewrite Hne in Hc, Hr. done.
Qed.

(** C7.  After any sequence of calls of [addSphere] on a new object, the
    count is the number of calls and every sphere of the set has the radius
    it was added with and the mass [sphereDensity * size * size * size];
    this holds of every size, the positive ones among them. *)
Theorem addSphere_mass_is_density_times_cube (uninit : Particle F)
    (calls : list (Vec4 F * F)) :
  let s := add_all cfg uninit calls in
  sphereCount s = length calls /\
  (forall k pos size, calls !! k = Some (pos, size) ->
     radius s k = size /\
     mass (_particles s) k = sphereDensity cfg *! size *! size *! size) /\
  (forall k, k < sphereCount s ->
     mass (_particles s) k
     = sphereDensity cfg *! radius s k *! radius s k *! radius s k).
Proof.
  intros s. destruct (add_all_invariant cfg uninit calls) as (Hn & _ & _ & _ & Hall).
  fold s in Hn, Hall. split_and!; [done| |].
  - intros k pos size Hk. destruct (Hall _ _ _ Hk) as (? & _ & ?). done.
  - intros k Hk. rewrite Hn in Hk.
    destruct (lookup_lt_is_Some_2 _ _ Hk) as [[pos size] Hc].
    destruct (Hall _ _ _ Hc) as (-> & _ & ->). done.
Qed.
End Generic.

(** ** Positions during the response *)

Section Positions.
Context {F : Type} `{Scalar F}.
Variable cfg : Configs F.
Implicit Types (s : Spheres F) (cloth : Cloth F).

(** Up to the positional correction the positions are those at the start
    of the response. *)
Lemma respond_before_positions s j i :
  let Pb := before_correction (respond cfg s j i) in
  length Pb = length (_particles s) /\
  forall k, position Pb k = position (_particles s) k.
Proof.
  apply (respond_velocity_steps cfg
           (fun P' => length P' = length (_particles s) /\
                      forall k, position P' k = position (_particles s) k)).
  - intros k d P' _ [Hl Hp]. rewrite length_add_velocity. split; [done|].
    intros k'. by rewrite position_add_velocity.
  - intros k d P' _ [Hl Hp]. rewrite length_add_rotation. split; [done|].
    intros k'. by rewrite position_add_rotation.
  - rewrite respond_after_impulse. rewrite !length_add_velocity. split; [done|].
    intros k'. by rewrite !position_add_velocity.
Qed.

Lemma respond_cloth_before_positions s cloth j i :
  let Pb := (before_correction (respond_cloth cfg s cloth j i)).1 in
  let Cb := (before_correction (respond_cloth cfg s cloth j i)).2 in
  (length Pb = length (_particles s) /\
   forall k, position Pb k = position (_particles s) k) /\
  (length Cb = length (particles cloth) /\
   forall k, position Cb k = position (particles cloth) k).
Proof.
  apply (respond_cloth_velocity_steps cfg
           (fun P' => length P' = length (_particles s) /\
                      forall k, position P' k = position (_particles s) k)
           (fun C' => length C' = length (particles cloth) /\
                      forall k, position C' k = position (particles cloth) k)).
  - intros d P' [Hl Hp]. rewrite length_add_velocity. split; [done|].
    intros k'. by rewrite position_add_velocity.
  - intros d P' [Hl Hp]. rewrite length_add_rotation. split; [done|].
    intros k'. by rewrite position_add_rotation.
  - intros d P' [Hl Hp]. rewrite length_add_velocity. split; [done|].
    intros k'. by rewrite position_add_velocity.
  - rewrite respond_cloth_after_impulse. simpl. rewrite length_add_velocity.
    split; [done|]. intros k'. by rewrite position_add_velocity.
  - rewrite respond_cloth_after_impulse. simpl. rewrite length_add_velocity.
    split; [done|]. intros k'. by rewrite position_add_velocity.
Qed.

(** The positions after the correction, in terms of the positions before
    the response. *)
Lemma respond_after_positions s j i :
  let P := _particles s in
  let vec := position P i -^ position P j in
  let penetration := radius s j +! radius s i -! abs (norm vec) in
  let correction := penetration *^ normalized vec ^* lit 15 100 in
  let P' := after_correction (respond cfg s j i) in
  j <> i -> j < length P -> i < length P ->
  position P' i = position P i +^ correction /\
  position P' j = position P j -^ correction.
Proof.
  intros P vec penetration correction P' Hji Hj Hi. unfold P'.
  rewrite respond_after_correction. cbv zeta.
  destruct (respond_before_positions s j i) as [Hl Hp]. cbv zeta in Hl, Hp.
  rewrite !Hp. fold P vec penetration correction. split.
  - rewrite position_sub_position_ne by done.
    rewrite position_add_position by (rewrite Hl; done). by rewrite Hp.
  - rewrite position_sub_position by (rewrite length_add_position, Hl; done).
    rewrite position_add_position_ne by done. by rewrite Hp.
Qed.

Lemma respond_cloth_after_positions s cloth j i :
  let P := _particles s in
  let C := particles cloth in
  let vec := position C i -^ position P j in
  let penetration := radius s j -! abs (norm vec) in
  let correction := penetration *^ normalized vec ^* lit 15 100 in
  let PC' := after_correction (respond_cloth cfg s cloth j i) in
  j < length P -> i < length C ->
  position PC'.2 i = position C i +^ correction /\
  position PC'.1 j = position P j -^ correction.
Proof.
  intros P C vec penetration correction PC' Hj Hi. unfold PC'.
  rewrite respond_cloth_after_correction. cbv zeta.
  destruct (respond_cloth_before_positions s cloth j i) as [[Hl Hp] [Hl' Hp']].
  cbv zeta in Hl, Hp, Hl', Hp'.
  rewrite !Hp, !Hp'. fold P C vec penetration correction. cbn [fst snd]. split.
  - rewrite position_add_position by (rewrite Hl'; done). by rewrite Hp'.
  - rewrite position_sub_position by (rewrite Hl; done). by rewrite Hp.
Qed.
End Positions.

Section GenericLaws.
Context {F : Type} `{Scalar F}.
Variable cfg : Configs F.
Implicit Types (s : Spheres F) (cloth : Cloth F).


(** C4.  For a pair in contact the positional correction is
    [penetration * normal * 0.15]: it is added to the position of the one
    body and subtracted from the position of the other, where the
    penetration is the sum of the radii minus the distance of the centres
    for two spheres, and the radius minus the distance for a sphere and a
    cloth particle. *)
Theorem correction_is_15_percent_of_penetration `{!NormNonneg F} s cloth j i :
  let P := _particles s in
  let C := particles cloth in
  (j <> i -> j < length P -> i < length P -> touching s j i = true ->
   let vec := position P i -^ position P j in
   let penetration := radius s j +! radius s i -! norm vec in
   let correction := penetration *^ normalized vec ^* lit 15 100 in
   let P' := _particles (collide_pair cfg j i s) in
   position P' i = position P i +^ correction /\
   position P' j = position P j -^ correction) /\
  (j < length P -> i < length C -> touching_cloth s cloth j i = true ->
   let vec := position C i -^ position P j in
   let penetration := radius s j -! norm vec in
   let correction := penetration *^ normalized vec ^* lit 15 100 in
   let sc' := collide_cloth_pair cfg j i (s, cloth) in
   position (particles sc'.2) i = position C i +^ correction /\
   position (_particles sc'.1) j = position P j -^ correction).
Proof.
  intros P C. split.
  - intros Hji Hj Hi Ht.
    pose proof (respond_after_positions cfg s j i Hji Hj Hi) as Hpos.
    cbv zeta in Hpos. rewrite (abs_norm (position P i -^ position P j)) in Hpos.
    unfold collide_pair. rewrite Ht. exact Hpos.
  - intros Hj Hi Ht.
    pose proof (respond_cloth_after_positions cfg s cloth j i Hj Hi) as Hpos.
    cbv zeta in Hpos. rewrite (abs_norm (position C i -^ position P j)) in Hpos.
    unfold collide_cloth_pair. rewrite Ht.
    destruct (after_correction (respond_cloth cfg s cloth j i)) as [P' C'].
    exact Hpos.
Qed.
End GenericLaws.

(** ** Exact arithmetic *)

Module ExactFacts.
Import Exact.
Local Open Scope R_scope.

Ltac scalars :=
  cbv [add sub mul div opp sqrt abs lit zero scalar] in *.
Ltac vectors :=
  cbv [vadd vsub vopp smul vmul vdiv vsum dot squaredNorm norm cross3 vzero
       vx vy vz vw] in *.

Lemma vec_eq (a b : Vec4 R) :
  vx a = vx b -> vy a = vy b -> vz a = vz b -> vw a = vw b -> a = b.
Proof. destruct a, b; simpl; congruence. Qed.

Lemma squaredNorm_nonneg (v : Vec4 R) : 0 <= squaredNorm v.
Proof. destruct v as [x y z w]. vectors. scalars. nra. Qed.

Lemma squaredNorm_zero (v : Vec4 R) : squaredNorm v <= 0 -> v = vzero.
Proof.
  destruct v as [x y z w]. vectors. scalars. intros Hz.
  assert (x = 0) by nra. assert (y = 0) by nra.
  assert (z = 0) by nra. assert (w = 0) by nra. by subst.
Qed.

Lemma norm_nonneg (v : Vec4 R) : 0 <= norm v.
Proof. apply sqrt_pos. Qed.

Lemma abs_norm_exact : NormNonneg R.
Proof. intros v. apply Rabs_pos_eq, norm_nonneg. Qed.

Lemma lt_not_le_exact : LtNotLe R.
Proof.
  intros a b. unfold ltb, leb; simpl. intros Hlt%bool_decide_eq_true.
  apply bool_decide_eq_false. lra.
Qed.

(** [normalized] is the quotient by the norm, of unit length, or the zero
    vector. *)
Lemma normalized_cases (v : Vec4 R) :
  (0 < norm v /\ normalized v = v ^/ norm v /\ dot (normalized v) (normalized v) = 1)
  \/ (v = vzero /\ normalized v = vzero).
Proof.
  pose proof (squaredNorm_nonneg v) as H0.
  pose proof (squaredNorm_zero v) as H1.
  unfold normalized, norm. cbv zeta. unfold ltb; simpl.
  case_bool_decide as Hz.
  - left. pose proof (sqrt_lt_R0 _ Hz) as Hn.
    pose proof (sqrt_sqrt _ H0) as Hs. clear H1.
    split_and!; [done..|].
    destruct v as [x y z w]. vectors. scalars.
    set (n := R_sqrt.sqrt _) in *. clearbody n.
    field_simplify_eq; [|lra]. nra.
  - right. assert (v = vzero) as -> by (apply H1, Rnot_lt_le; exact Hz). done.
Qed.

(** The impulse replaces the component of a velocity along the normal. *)
Lemma normal_component_replaced (n v : Vec4 R) (c : R) :
  dot n n = 1 \/ n = vzero ->
  dot n (v +^ (-^ (dot n v *^ n) +^ c *^ n)) *^ n = c *^ n.
Proof.
  intros [Hn | ->].
  - destruct n as [nx ny nz nw], v as [x y z w]. vectors. scalars.
    set (a := nx * x + ny * y + (nz * z + nw * w)) in *.
    assert (nx * (x + (- (a * nx) + c * nx)) + ny * (y + (- (a * ny) + c * ny))
            + (nz * (z + (- (a * nz) + c * nz)) + nw * (w + (- (a * nw) + c * nw)))
            = c) as ->; [|done].
    transitivity (a + (c - a) * (nx * nx + ny * ny + (nz * nz + nw * nw)));
      [unfold a; ring|rewrite Hn; ring].
  - destruct v as [x y z w]. vectors. scalars. f_equal; ring.
Qed.

(** The velocities after the impulse are multiples of the normal. *)
Lemma after_along_normal (n : Vec4 R) (m1 m2 c a b p q : R) :
  (m1 *^ (a *^ n) +^ m2 *^ (b *^ n) +^ c *^ (p *^ n -^ q *^ n)) ^/ (m1 +! m2)
  = ((m1 * a + m2 * b + c * (p - q)) / (m1 + m2)) *^ n.
Proof.
  destruct n as [nx ny nz nw]. vectors. scalars. unfold Rdiv. f_equal; ring.
Qed.

Lemma inelastic_along_normal (n : Vec4 R) (m1 m2 a b : R) :
  (m1 *^ (a *^ n) +^ m2 *^ (b *^ n)) ^/ (m1 +! m2)
  = ((m1 * a + m2 * b) / (m1 + m2)) *^ n.
Proof.
  destruct n as [nx ny nz nw]. vectors. scalars. unfold Rdiv. f_equal; ring.
Qed.

Lemma normalized_unit_or_zero (v : Vec4 R) :
  dot (normalized v) (normalized v) = 1 \/ normalized v = vzero.
Proof. destruct (normalized_cases v) as [(_ & _ & ?)|[_ ?]]; auto. Qed.

(** Pushing two bodies apart along the normal does not bring their
    centres closer. *)
Lemma push_out_distance (pi pj : Vec4 R) (pen : R) :
  let vec := pi -^ pj in
  let c := pen *^ normalized vec ^* lit 15 100 in
  0 <= pen -> norm vec <= norm ((pi +^ c) -^ (pj -^ c)).
Proof.
  intros vec c Hpen. unfold c.
  destruct (normalized_cases vec) as [(Hd & -> & _)|[Hv ->]].
  - pose proof (sqrt_sqrt _ (squaredNorm_nonneg vec)) as Hs.
    unfold norm in *. apply sqrt_le_1_alt.
    unfold vec in *. clear vec c.
    destruct pi as [x1 y1 z1 w1], pj as [x2 y2 z2 w2]. vectors. scalars.
    set (d := R_sqrt.sqrt _) in *. clearbody d.
    set (k := 1 + 2 * (pen / d * (15 / 100))).
    assert (1 <= k) as Hk.
    { unfold k. assert (0 <= pen / d) by (apply Rle_mult_inv_pos; lra). lra. }
    assert (forall a b : R, a + pen * ((a - b) / d) * (15 / 100)
              - (b - pen * ((a - b) / d) * (15 / 100)) = k * (a - b)) as Hc.
    { intros a b. unfold k. field. lra. }
    rewrite !Hc.
    assert (forall a : R, a * a <= k * a * (k * a)) as Hsq.
    { intros a. replace (k * a * (k * a)) with (k * k * (a * a)) by ring.
      pose proof (Rle_0_sqr a) as Ha. unfold Rsqr in Ha.
      assert (0 <= (k * k - 1) * (a * a)) by (apply Rmult_le_pos; nra). lra. }
    pose proof (Hsq (x1 - x2)). pose proof (Hsq (y1 - y2)).
    pose proof (Hsq (z1 - z2)). pose proof (Hsq (w1 - w2)). lra.
  - unfold vec in *. clear vec c.
    destruct pi as [x1 y1 z1 w1], pj as [x2 y2 z2 w2]. vectors. scalars.
    apply Req_le. f_equal. ring.
Qed.

(** Closes a comparison of two overlap depths, given that the distance
    after the correction is not smaller than the distance [norm vec]. *)
Ltac finish_overlap Hpush :=
  rewrite !abs_norm_exact in *;
  lazymatch type of Hpush with
  | ?a <= ?b =>
      let d := fresh "d" in
      let d' := fresh "d" in
      set (d := a) in *; set (d' := b) in *; clearbody d d'
  end;
  unfold radius in *; scalars; lra.

Section Response.
Variable cfg : Configs R.
Implicit Types (s : Spheres R) (cloth : Cloth R).



(** The impulse of lines 194-197 by itself is equal and opposite: it keeps
    the momentum of the pair, when the masses do not add up to zero. *)
Lemma impulse_keeps_momentum s j i :
  let P := _particles s in
  let P1 := after_impulse (respond cfg s j i) in
  j <> i -> (j < length P)%nat -> (i < length P)%nat ->
  mass P j + mass P i <> 0 ->
  momentum P1 j i = momentum P j i.
Proof.
  intros P P1 Hji Hj Hi Hm. unfold momentum, P1.
  rewrite respond_after_impulse. cbv zeta. fold P.
  rewrite !mass_add_velocity.
  rewrite (velocity_add_velocity_ne i) by done.
  rewrite (velocity_add_velocity j) by done.
  rewrite (velocity_add_velocity i) by (by rewrite length_add_velocity).
  rewrite (velocity_add_velocity_ne j) by done.
  set (n := normalized (position P i -^ position P j)).
  generalize (dot n (velocity P j)) (dot n (velocity P i)). intros a b.
  revert Hm. generalize (mass P j) (mass P i). intros m1 m2 Hm.
  destruct n as [nx ny nz nw].
  destruct (velocity P j) as [x1 y1 z1 w1], (velocity P i) as [x2 y2 z2 w2].
  vectors. scalars. f_equal; field; exact Hm.
Qed.

End Response.
End ExactFacts.

(** ** Binary32 *)

Module B32Facts.
Import B32.

Lemma SFcompare_antisym (a b : spec_float) :
  SFcompare a b = CompOpp <$> SFcompare b a.
Proof.
  destruct a as [[]|[]| |[] m e], b as [[]|[]| |[] m' e']; simpl; try done.
  - rewrite (Z.compare_antisym e e'). destruct (e ?= e')%Z; simpl; try done.
    f_equal. rewrite CompOpp_involutive. exact (Pos.compare_cont_antisym m m' Eq).
  - rewrite (Z.compare_antisym e e'). destruct (e ?= e')%Z; simpl; try done.
    f_equal. symmetry. exact (Pos.compare_cont_antisym m' m Eq).
Qed.

Lemma lt_not_le_b32 : LtNotLe spec_float.
Proof.
  intros a b. unfold ltb, leb; simpl. unfold SFltb, SFleb.
  rewrite (SFcompare_antisym a b). by destruct (SFcompare b a) as [[]|].
Qed.

Lemma nonneg_round_aux m e l : nonneg (binary_round_aux prec emax false m e l).
Proof.
  unfold binary_round_aux.
  destruct (shr_fexp prec emax m e l) as [mrs' e'].
  destruct (shr_fexp prec emax _ e' loc_Exact) as [mrs'' e''].
  destruct (shr_m mrs''); simpl; try done. by destruct (_ <=? _)%Z.
Qed.

Lemma nonneg_mul_self x : nonneg (SFmul prec emax x x).
Proof.
  destruct x as [[]|[]| |[] m e]; simpl; try done; apply nonneg_round_aux.
Qed.

Lemma nonneg_add x y : nonneg x -> nonneg y -> nonneg (SFadd prec emax x y).
Proof.
  destruct x as [[]|[]| |[] m e], y as [[]|[]| |[] m' e']; simpl; try done.
  intros _ _. unfold binary_normalize, binary_round.
  destruct (shl_align _ _ _) as [mz ez] eqn:Hz. apply nonneg_round_aux.
Qed.

Lemma nonneg_sqrt x : nonneg x -> nonneg (SFsqrt prec emax x).
Proof.
  destruct x as [[]|[]| |[] m e]; simpl; try done. intros _.
  destruct (SFsqrt_core_binary _ _ _ _) as [[mz ez] lz]. apply nonneg_round_aux.
Qed.

Lemma abs_nonneg x : nonneg x -> SFabs x = x.
Proof. destruct x; simpl; congruence. Qed.

Lemma abs_norm_b32 : NormNonneg spec_float.
Proof.
  intros v. apply abs_nonneg. unfold norm, squaredNorm, dot, vsum; simpl.
  apply nonneg_sqrt. repeat apply nonneg_add; apply nonneg_mul_self.
Qed.
End B32Facts.

(** ** Exact arithmetic with undefined results *)

Create HintDb defd discriminated.

Module CheckedFacts.
Import Exact Checked.
Local Open Scope R_scope.
Implicit Types (a b c : option R) (u v : Vec4 (option R)) (P : Particles (option R)).

Lemma positive_nonzero a : positive a -> nonzero a.
Proof. intros (x & -> & Hx). exists x. split; [done|lra]. Qed.

Lemma nonzero_is_Some a : nonzero a -> is_Some a.
Proof. intros (x & -> & _). by eexists. Qed.

Lemma is_Some_zero : is_Some (zero : option R).
Proof. by eexists. Qed.

Lemma is_Some_add a b : is_Some a -> is_Some b -> is_Some (a +! b).
Proof. intros [x ->] [y ->]. by eexists. Qed.

Lemma is_Some_sub a b : is_Some a -> is_Some b -> is_Some (a -! b).
Proof. intros [x ->] [y ->]. by eexists. Qed.

Lemma is_Some_mul a b : is_Some a -> is_Some b -> is_Some (a *! b).
Proof. intros [x ->] [y ->]. by eexists. Qed.

Lemma is_Some_opp a : is_Some a -> is_Some (opp a).
Proof. intros [x ->]. by eexists. Qed.

Lemma is_Some_abs a : is_Some a -> is_Some (abs a).
Proof. intros [x ->]. by eexists. Qed.

Lemma is_Some_div a b : is_Some a -> nonzero b -> is_Some (a /! b).
Proof.
  intros [x ->] (y & -> & Hy). simpl. unfold cdiv. rewrite decide_False by done.
  by eexists.
Qed.

Lemma positive_add a b : positive a -> positive b -> positive (a +! b).
Proof. intros (x & -> & Hx) (y & -> & Hy). exists (x + y). split; [done|lra]. Qed.

Lemma nonzero_mul a b : nonzero a -> nonzero b -> nonzero (a *! b).
Proof.
  intros (x & -> & Hx) (y & -> & Hy). exists (x * y). split; [done|].
  by apply Rmult_integral_contrapositive_currified.
Qed.

Lemma nonzero_two_fifths : nonzero (lit 2 1 /! lit 5 1).
Proof.
  simpl. unfold cdiv. rewrite !decide_False by lra.
  eexists. split; [done|]. lra.
Qed.

Lemma is_Some_lit (n d : Z) : d <> 0%Z -> is_Some (lit n d : option R).
Proof.
  intros Hd. simpl. unfold cdiv. rewrite decide_False; [by eexists|].
  by apply not_0_IZR.
Qed.

(** Vectors *)
Lemma vdefined_zero : vdefined vzero.
Proof. repeat split; apply is_Some_zero. Qed.

Lemma vdefined_add u v : vdefined u -> vdefined v -> vdefined (u +^ v).
Proof. intros (?&?&?&?) (?&?&?&?). repeat split; by apply is_Some_add. Qed.

Lemma vdefined_sub u v : vdefined u -> vdefined v -> vdefined (u -^ v).
Proof. intros (?&?&?&?) (?&?&?&?). repeat split; by apply is_Some_sub. Qed.

Lemma vdefined_opp u : vdefined u -> vdefined (-^ u).
Proof. intros (?&?&?&?). repeat split; by apply is_Some_opp. Qed.

Lemma vdefined_smul a u : is_Some a -> vdefined u -> vdefined (a *^ u).
Proof. intros ? (?&?&?&?). repeat split; by apply is_Some_mul. Qed.

Lemma vdefined_vmul u a : vdefined u -> is_Some a -> vdefined (u ^* a).
Proof. intros (?&?&?&?) ?. repeat split; by apply is_Some_mul. Qed.

Lemma vdefined_div u a : vdefined u -> nonzero a -> vdefined (u ^/ a).
Proof. intros (?&?&?&?) ?. repeat split; by apply is_Some_div. Qed.

Lemma vdefined_cross3 u v : vdefined u -> vdefined v -> vdefined (cross3 u v).
Proof.
  unfold vdefined, cross3. cbn [vx vy vz vw]. intros (?&?&?&?) (?&?&?&?).
  split_and!; auto using is_Some_sub, is_Some_mul, is_Some_zero.
Qed.

Lemma is_Some_dot u v : vdefined u -> vdefined v -> is_Some (dot u v).
Proof.
  unfold vdefined, dot, vsum. cbn [vx vy vz vw]. intros (?&?&?&?) (?&?&?&?).
  auto 10 using is_Some_add, is_Some_mul.
Qed.

(** The squared norm of a defined vector is a defined number that is not
    negative. *)
Lemma squaredNorm_value u :
  vdefined u -> exists x, squaredNorm u = Some x /\ 0 <= x.
Proof.
  destruct u as [a b c d]. unfold vdefined. cbn [vx vy vz vw].
  intros ([x ->] & [y ->] & [z ->] & [w ->]).
  eexists. split; [reflexivity|]. nra.
Qed.

Lemma is_Some_norm u : vdefined u -> is_Some (norm u).
Proof.
  intros (x & Hx & Hpos)%squaredNorm_value. unfold norm. rewrite Hx. simpl.
  rewrite decide_False by lra. by eexists.
Qed.

Lemma vdefined_normalized u : vdefined u -> vdefined (normalized u).
Proof.
  intros Hu. destruct (squaredNorm_value u Hu) as (x & Hx & Hpos).
  unfold normalized. cbv zeta. rewrite Hx. simpl.
  case_bool_decide as Hlt; [|done].
  apply vdefined_div; [done|]. rewrite decide_False by lra.
  exists (R_sqrt.sqrt x). split; [done|].
  pose proof (sqrt_lt_R0 x Hlt). lra.
Qed.

(** Buffers *)
Lemma defined_lookup (A : Type) (f : Particle (option R) -> A) (d : A)
    (Q : A -> Prop) P k :
  defined P -> Q d -> (forall p, pdefined p -> Q (f p)) ->
  Q (from_option f d (P !! k)).
Proof.
  intros HP Hd Hf. destruct (P !! k) as [p|] eqn:Hp; simpl; [|done].
  apply Hf. by eapply Forall_lookup_1.
Qed.

Lemma vdefined_position P k : defined P -> vdefined (position P k).
Proof.
  intros HP. apply (defined_lookup _ _ _ vdefined); [done|apply vdefined_zero|].
  by intros p (?&?&?&?&?&?).
Qed.

Lemma vdefined_velocity P k : defined P -> vdefined (velocity P k).
Proof.
  intros HP. apply (defined_lookup _ _ _ vdefined); [done|apply vdefined_zero|].
  by intros p (?&?&?&?&?&?).
Qed.

Lemma vdefined_rotation P k : defined P -> vdefined (rotation P k).
Proof.
  intros HP. apply (defined_lookup _ _ _ vdefined); [done|apply vdefined_zero|].
  by intros p (?&?&?&?&?&?).
Qed.

Lemma is_Some_mass P k : defined P -> is_Some (mass P k).
Proof.
  intros HP. apply (defined_lookup _ _ _ is_Some); [done|apply is_Some_zero|].
  by intros p (?&?&?&?&?&?).
Qed.

Lemma is_Some_inverseMass P k : defined P -> is_Some (inverseMass P k).
Proof.
  intros HP. apply (defined_lookup _ _ _ is_Some); [done|apply is_Some_zero|].
  by intros p (?&?&?&?&?&?).
Qed.

Lemma is_Some_radius (s : Spheres (option R)) k :
  Forall is_Some (_radius s) -> is_Some (radius s k).
Proof.
  intros Hr. unfold radius. destruct (_radius s !! k) as [r|] eqn:Hk; simpl.
  - by eapply Forall_lookup_1.
  - apply is_Some_zero.
Qed.

Lemma steady_refl P : defined P -> steady P P.
Proof. done. Qed.

Lemma steady_defined P0 P : steady P0 P -> defined P.
Proof. by intros []. Qed.

Lemma steady_add_velocity P0 P k u :
  steady P0 P -> vdefined u -> steady P0 (add_velocity k u P).
Proof.
  intros (Hd & Hl & Hm) Hu. split_and!.
  - apply Forall_alter; [done|]. intros p _ (?&?&?&?&?&?).
    split_and!; try done; by apply vdefined_add.
  - by rewrite length_add_velocity.
  - intros k'. by rewrite mass_add_velocity.
Qed.

Lemma steady_add_rotation P0 P k u :
  steady P0 P -> vdefined u -> steady P0 (add_rotation k u P).
Proof.
  intros (Hd & Hl & Hm) Hu. split_and!.
  - apply Forall_alter; [done|]. intros p _ (?&?&?&?&?&?).
    split_and!; try done; by apply vdefined_add.
  - by rewrite length_add_rotation.
  - intros k'. by rewrite mass_add_rotation.
Qed.

Lemma steady_add_position P0 P k u :
  steady P0 P -> vdefined u -> steady P0 (add_position k u P).
Proof.
  intros (Hd & Hl & Hm) Hu. split_and!.
  - apply Forall_alter; [done|]. intros p _ (?&?&?&?&?&?).
    split_and!; try done; by apply vdefined_add.
  - by rewrite length_add_position.
  - intros k'. by rewrite mass_add_position.
Qed.

Lemma steady_sub_position P0 P k u :
  steady P0 P -> vdefined u -> steady P0 (sub_position k u P).
Proof.
  intros (Hd & Hl & Hm) Hu. split_and!.
  - apply Forall_alter; [done|]. intros p _ (?&?&?&?&?&?).
    split_and!; try done; by apply vdefined_sub.
  - by rewrite length_sub_position.
  - intros k'. by rewrite mass_sub_position.
Qed.

Lemma steady_mass_positive P0 P k :
  steady P0 P -> positive (mass P0 k) -> positive (mass P k).
Proof. intros (_ & _ & Hm) ?. by rewrite Hm. Qed.

Lemma positive_is_Some a : positive a -> is_Some a.
Proof. intros (x & -> & _). by eexists. Qed.

Lemma nonzero_add a b : positive a -> positive b -> nonzero (a +! b).
Proof. intros. by apply positive_nonzero, positive_add. Qed.

Lemma steady_mass_nonzero P0 P k :
  steady P0 P -> positive (mass P0 k) -> nonzero (mass P k).
Proof. intros. by eapply positive_nonzero, steady_mass_positive. Qed.

#[local] Hint Immediate positive_nonzero nonzero_is_Some positive_is_Some
  steady_defined steady_mass_positive steady_mass_nonzero : defd.
#[local] Hint Resolve is_Some_zero is_Some_add
  is_Some_sub is_Some_mul is_Some_opp is_Some_abs is_Some_div nonzero_add
  nonzero_mul nonzero_two_fifths vdefined_zero vdefined_add vdefined_sub
  vdefined_opp vdefined_smul vdefined_vmul vdefined_div vdefined_cross3
  is_Some_dot is_Some_norm vdefined_normalized vdefined_position
  vdefined_velocity vdefined_rotation is_Some_mass is_Some_inverseMass
  is_Some_radius steady_refl steady_add_velocity
  steady_add_rotation steady_add_position steady_sub_position : defd.
#[local] Hint Extern 1 (is_Some (lit _ _)) => apply is_Some_lit; discriminate : defd.

(** Records what is known of the local definition [x] of a body: a
    vector is defined, a number is positive, not zero or defined, a buffer
    is [steady]. *)
Ltac known P0 C0 x :=
  let T := type of x in
  lazymatch T with
  | Vec4 _ => assert (vdefined x) by (unfold x; eauto 12 with defd)
  | option R =>
      first [ assert (positive x) by (unfold x; eauto 12 with defd)
            | assert (nonzero x) by (unfold x; eauto 12 with defd)
            | assert (is_Some x) by (unfold x; eauto 12 with defd) ]
  | list (Particle _) =>
      first [ assert (steady P0 x) by (unfold x; eauto 12 with defd)
            | assert (steady C0 x) by (unfold x; eauto 12 with defd) ]
  | _ => idtac
  end.

Ltac lets_known Psi P0 C0 :=
  repeat lazymatch goal with
  | |- Psi (let x := ?a in @?f x) =>
      change (let x := a in Psi (f x)); intro; cbv beta;
      lazymatch goal with x := _ |- _ => known P0 C0 x end
  end.

Section Defined.
Variable cfg : Configs (option R).
Hypothesis Hcfg : regular_configs cfg.
Implicit Types (s : Spheres (option R)) (cloth : Cloth (option R)).

Lemma respond_steady s j i :
  defined (_particles s) -> Forall is_Some (_radius s) ->
  positive (mass (_particles s) j) -> positive (mass (_particles s) i) ->
  nonzero (radius s j) -> nonzero (radius s i) ->
  steady (_particles s) (after_correction (respond cfg s j i)).
Proof using Hcfg.
  intros Hd Hr Hmj Hmi Hrj Hri. destruct Hcfg as [Hdt Hfr].
  set (Psi := fun t : Trace (Particles (option R)) =>
                steady (_particles s) (after_correction t)).
  change (Psi (respond cfg s j i)).
  with_strategy transparent [respond] (cbv beta delta [respond]).
  lets_known Psi (_particles s) (_particles s).
  cbv beta iota delta [Psi after_correction]. assumption.
Qed.

Lemma respond_cloth_steady s cloth j i :
  defined (_particles s) -> Forall is_Some (_radius s) ->
  defined (particles cloth) ->
  positive (mass (_particles s) j) -> positive (mass (particles cloth) i) ->
  nonzero (radius s j) ->
  steady (_particles s) (after_correction (respond_cloth cfg s cloth j i)).1 /\
  steady (particles cloth) (after_correction (respond_cloth cfg s cloth j i)).2.
Proof using Hcfg.
  intros Hd Hr Hc Hmj Hmi Hrj. destruct Hcfg as [Hdt Hfr].
  set (Psi := fun t : Trace (Particles (option R) * Particles (option R)) =>
                steady (_particles s) (after_correction t).1 /\
                steady (particles cloth) (after_correction t).2).
  change (Psi (respond_cloth cfg s cloth j i)).
  with_strategy transparent [respond_cloth] (cbv beta delta [respond_cloth]).
  lets_known Psi (_particles s) (particles cloth).
  cbv beta iota delta [Psi after_correction fst snd]. by split.
Qed.

(** One pair, and then all of them, keep a state regular. *)
Lemma collide_pair_regular s j i :
  (j < sphereCount s)%nat -> (i < sphereCount s)%nat ->
  regular s -> regular (collide_pair cfg j i s).
Proof using Hcfg.
  intros Hj Hi (Hd & Hr & Hn & Hk). unfold collide_pair.
  destruct (touching s j i); [|done].
  destruct (Hk j Hj) as [Hmj Hrj]. destruct (Hk i Hi) as [Hmi Hri].
  destruct (respond_steady s j i Hd Hr Hmj Hmi Hrj Hri) as (Hd' & Hl' & Hm').
  set (P' := after_correction (respond cfg s j i)) in *. clearbody P'.
  unfold regular. cbn [sphereCount _particles _radius].
  split_and!; [done..|lia|].
  intros k Hlt. rewrite Hm'. by apply Hk.
Qed.

Lemma collide_regular s : regular s -> regular (collide cfg s).
Proof using Hcfg.
  intros Hs. rewrite collide_foldl.
  assert (regular (foldl (fun s ji => collide_pair cfg ji.1 ji.2 s) s
                     (pairs (sphereCount s))) /\
          sphereCount (foldl (fun s ji => collide_pair cfg ji.1 ji.2 s) s
                     (pairs (sphereCount s))) = sphereCount s) as [? _]; [|done].
  apply (foldl_invariant
           (fun s' => regular s' /\ sphereCount s' = sphereCount s)); [done|].
  intros s' [j i] Hji%elem_of_pairs [Hs' Hc]. simpl. split.
  - apply collide_pair_regular; [lia..|done].
  - rewrite <- Hc. apply collide_pair_frame.
Qed.

Lemma collide_cloth_pair_regular s cloth n j i :
  (j < sphereCount s)%nat -> (i < n)%nat ->
  regular s -> regular_cloth n cloth ->
  regular (collide_cloth_pair cfg j i (s, cloth)).1 /\
  regular_cloth n (collide_cloth_pair cfg j i (s, cloth)).2.
Proof using Hcfg.
  intros Hj Hi (Hd & Hr & Hn & Hk) (Hc & Hcn & Hck). unfold collide_cloth_pair.
  destruct (touching_cloth s cloth j i); [|done].
  destruct (Hk j Hj) as [Hmj Hrj].
  destruct (respond_cloth_steady s cloth j i Hd Hr Hc Hmj (Hck i Hi) Hrj)
    as [(Hd' & Hl' & Hm') (Hc' & Hcl' & Hcm')].
  destruct (after_correction (respond_cloth cfg s cloth j i)) as [P' C'].
  cbn [fst snd] in *. unfold regular, regular_cloth.
  cbn [sphereCount _particles _radius particles].
  split_and!; [done..|lia| |done|lia|].
  - intros k Hlt. rewrite Hm'. by apply Hk.
  - intros k Hlt. rewrite Hcm'. by apply Hck.
Qed.

Lemma collide_cloth_regular s cloth :
  regular s ->
  regular_cloth (particlesPerEdge cfg * particlesPerEdge cfg) cloth ->
  regular (collide_cloth cfg s cloth).1 /\
  regular_cloth (particlesPerEdge cfg * particlesPerEdge cfg)
    (collide_cloth cfg s cloth).2.
Proof using Hcfg.
  intros Hs Hc. rewrite collide_cloth_foldl.
  set (n := (particlesPerEdge cfg * particlesPerEdge cfg)%nat) in *.
  assert (let sc := foldl (fun sc ji => collide_cloth_pair cfg ji.1 ji.2 sc)
                      (s, cloth) (cloth_pairs (sphereCount s) n) in
          (regular sc.1 /\ regular_cloth n sc.2) /\
          sphereCount sc.1 = sphereCount s) as [? _]; [|done].
  apply (foldl_invariant
           (fun sc => (regular sc.1 /\ regular_cloth n sc.2) /\
                      sphereCount sc.1 = sphereCount s)); [done|].
  intros [s' cloth'] [j i] [Hj Hi]%elem_of_cloth_pairs [[Hs' Hc'] Hcount].
  simpl in *. split.
  - apply collide_cloth_pair_regular; [lia|done..].
  - rewrite <- Hcount. apply (collide_cloth_pair_frame cfg j i s' cloth').
Qed.
End Defined.
End CheckedFacts.

(** ** The claims on binary32 numbers *)

Module OnBinary32.
Import B32 B32Facts Examples32.

(** C1.  Two unit spheres of mass 1 at rest at distance 1, both with
    rotation [(0, 0, 1)]: before [Spheres::collide()] the momentum of the
    pair is zero, after it the momentum is [(0, 2/1024, 0)], twice the time
    step.  The code adds [deltaTime * rotate_direction * inverseMass] to
    each velocity, with the same sign for both spheres. *)
Theorem spinning_spheres_gain_momentum :
  momentum (_particles spinning) 0 1 = vzero /\
  momentum (_particles (collide cfg spinning)) 0 1
  = mkVec4 zero (num 2 1024) zero zero.
Proof. split; vm_compute; reflexivity. Qed.

(** Two calls of [addSphere] with size 0 at one place give two spheres of
    mass 0 in contact, and the collision divides zero by zero. *)
Example zero_size_spheres_nan :
  mass (_particles two_points) 0 = zero /\
  vx (velocity (_particles (collide cfg two_points)) 0) = S754_nan.
Proof. split; vm_compute; reflexivity. Qed.

Lemma collide_writes_only_velocity_position_rotation_witness :
  (involved cfg 2 (pairs (sphereCount three)) three = false /\
   _particles (collide cfg three) !! 2 = _particles three !! 2) /\
  (involved_cloth cfg (inl 2)
     (cloth_pairs (sphereCount three) (particlesPerEdge cfg * particlesPerEdge cfg))
     (three, cloth_two) = false /\
   _particles (collide_cloth cfg three cloth_two).1 !! 2 = _particles three !! 2) /\
  (involved_cloth cfg (inr 1)
     (cloth_pairs (sphereCount three) (particlesPerEdge cfg * particlesPerEdge cfg))
     (three, cloth_two) = false /\
   particles (collide_cloth cfg three cloth_two).2 !! 1 = particles cloth_two !! 1).
Proof.
  destruct (collide_writes_only_velocity_position_rotation cfg three cloth_two)
    as ((_ & _ & _ & _ & Hs) & (_ & _ & _ & _ & _ & _ & Hp & Hc)).
  split_and!.
  - vm_compute; reflexivity.
  - apply Hs. vm_compute; reflexivity.
  - vm_compute; reflexivity.
  - apply Hp. vm_compute; reflexivity.
  - vm_compute; reflexivity.
  - apply Hc. vm_compute; reflexivity.
Defined.

Lemma addSphere_mass_is_density_times_cube_witness :
  let calls := [(vzero, num 2 1); (vec3 (num 8 1) zero zero, num 1 2)] in
  let s := add_all cfg (body zero zero) calls in
  calls !! 1 = Some (vec3 (num 8 1) zero zero, num 1 2) /\
  (1 < sphereCount s)%nat /\
  radius s 1 = num 1 2 /\
  mass (_particles s) 1 = sphereDensity cfg *! num 1 2 *! num 1 2 *! num 1 2 /\
  mass (_particles s) 1 = sphereDensity cfg *! radius s 1 *! radius s 1 *! radius s 1.
Proof.
  intros calls s.
  destruct (addSphere_mass_is_density_times_cube cfg (body zero zero) calls)
    as (Hn & Hcall & Hall).
  assert (calls !! 1 = Some (vec3 (num 8 1) zero zero, num 1 2)) as Hc
    by reflexivity.
  assert (1 < sphereCount s)%nat as Hlt by (vm_compute; lia).
  destruct (Hcall _ _ _ Hc) as [Hr Hm].
  split_and!; [done..|]. by apply Hall.
Defined.

Lemma addSphere_doubles_capacity_witness :
  let s := add_all cfg (body zero zero) [(vzero, num 2 1)] in
  let s' := addSphere cfg (body zero zero) (vec3 (num 8 1) zero zero) (num 1 2) s in
  sphereCount s = getCapacity (_particles s) /\
  (0 < sphereCount s)%nat /\
  sphereCount s' = 2%nat /\
  getCapacity (_particles s') = 2%nat /\
  length (_radius s') = 2%nat /\
  _particles s' !! 0 = _particles s !! 0 /\
  radius s' 1 = num 1 2 /\
  position (_particles s') 1 = vec3 (num 8 1) zero zero.
Proof.
  intros s s'.
  destruct (addSphere_doubles_capacity cfg (body zero zero)
              (vec3 (num 8 1) zero zero) (num 1 2) s) as (Hc & Heq & _).
  assert (sphereCount s = getCapacity (_particles s)) as Hcap by reflexivity.
  assert (0 < sphereCount s)%nat as Hpos by (vm_compute; lia).
  destruct (Heq Hcap) as (Hp & Hr & Hold & Hnew).
  destruct (Hold 0%nat Hpos) as [Hold0 _].
  destruct (Hnew Hpos) as (Hrad & Hposn & _).
  split_and!; done.
Defined.


Lemma correction_is_15_percent_of_penetration_witness :
  let P := _particles three in
  let C := particles cloth_near in
  (touching three 0 1 = true /\
   let vec := position P 1 -^ position P 0 in
   let correction :=
     (radius three 0 +! radius three 1 -! norm vec) *^ normalized vec ^* lit 15 100 in
   position (_particles (collide_pair cfg 0 1 three)) 1 = position P 1 +^ correction /\
   position (_particles (collide_pair cfg 0 1 three)) 0 = position P 0 -^ correction) /\
  (touching_cloth three cloth_near 0 0 = true /\
   let vec := position C 0 -^ position P 0 in
   let correction := (radius three 0 -! norm vec) *^ normalized vec ^* lit 15 100 in
   position (particles (collide_cloth_pair cfg 0 0 (three, cloth_near)).2) 0
   = position C 0 +^ correction /\
   position (_particles (collide_cloth_pair cfg 0 0 (three, cloth_near)).1) 0
   = position P 0 -^ correction).
Proof.
  intros P C.
  destruct (correction_is_15_percent_of_penetration
              (NormNonneg0 := abs_norm_b32) cfg three cloth_near 0 1) as [Hs _].
  destruct (correction_is_15_percent_of_penetration
              (NormNonneg0 := abs_norm_b32) cfg three cloth_near 0 0) as [_ Hc].
  assert (touching three 0 1 = true) as Ht by (vm_compute; reflexivity).
  assert (touching_cloth three cloth_near 0 0 = true) as Ht'
    by (vm_compute; reflexivity).
  split; (split; [assumption|]).
  - apply Hs; [discriminate|simpl; lia|simpl; lia|assumption].
  - apply Hc; [simpl; lia|simpl; lia|assumption].
Defined.
End OnBinary32.

(** ** The claims on concrete states of real numbers *)

Module OnExact.
Import Exact ExactFacts ExamplesExact.
Local Open Scope R_scope.

Lemma sqrt_le_of_square (x r : R) : 0 <= r -> x <= r * r -> R_sqrt.sqrt x <= r.
Proof.
  intros Hr Hx. rewrite <- (sqrt_square r Hr). by apply sqrt_le_1_alt.
Qed.

Lemma resting_touching : touching resting 0 1 = true.
Proof. apply bool_decide_eq_true. cbn. apply sqrt_le_of_square; lra. Qed.

Lemma cloth_near_touching : touching_cloth resting cloth_near 0 0 = true.
Proof. apply bool_decide_eq_true. cbn. apply sqrt_le_of_square; lra. Qed.



End OnExact.

(** ** Division by zero *)

Module OnChecked.
Import Exact Checked CheckedFacts ExamplesChecked.
Local Open Scope R_scope.
Implicit Types (s : Spheres (option R)) (cloth : Cloth (option R))
  (P : Particles (option R)) (u v : Vec4 (option R)).

(** An undefined velocity stays undefined. *)
Lemma add_velocity_keeps_undefined k u P j :
  vx (velocity P j) = None -> vx (velocity (add_velocity k u P) j) = None.
Proof.
  intros Hv. destruct (decide (k = j)) as [->|Hne];
    [|by rewrite velocity_add_velocity_ne].
  destruct (decide (j < length P)%nat) as [Hlt|Hge].
  - rewrite velocity_add_velocity by done. simpl. by rewrite Hv.
  - unfold velocity in Hv. rewrite lookup_ge_None_2 in Hv by lia. done.
Qed.

Lemma vx_div_zero u : vx (u ^/ Some 0) = None.
Proof. simpl. destruct (vx u); simpl; [|done]. by rewrite decide_True. Qed.

Lemma vx_add_undefined u v : vx v = None -> vx (u +^ v) = None.
Proof. simpl. intros ->. by destruct (vx u). Qed.

(** Two bodies in contact whose masses add up to zero: the quotient by
    [m1 + m2] is undefined, and so is the velocity of [j] afterwards. *)
Lemma collide_pair_zero_mass cfg s j i :
  j <> i -> (j < length (_particles s))%nat ->
  touching s j i = true ->
  mass (_particles s) j +! mass (_particles s) i = Some 0 ->
  ~ defined (_particles (collide_pair cfg j i s)).
Proof.
  intros Hji Hj Ht Hm Hd. unfold collide_pair in Hd. rewrite Ht in Hd.
  cbn [_particles] in Hd.
  assert (vx (velocity (after_correction (respond cfg s j i)) j) = None) as Hv.
  { rewrite respond_after_correction. cbv zeta.
    rewrite velocity_sub_position, velocity_add_position.
    apply (respond_velocity_steps cfg (fun P' => vx (velocity P' j) = None)).
    - intros k d P' _. apply add_velocity_keeps_undefined.
    - intros k d P' _ Hv. by rewrite velocity_add_rotation.
    - rewrite respond_after_impulse. cbv zeta.
      rewrite velocity_add_velocity_ne by done.
      rewrite velocity_add_velocity by done. rewrite Hm.
      apply vx_add_undefined, vx_add_undefined, vx_div_zero. }
  pose proof (vdefined_velocity _ j Hd) as ([x Hx] & _). congruence.
Qed.

Lemma massless_touching : touching massless 0 1 = true.
Proof.
  unfold touching. cbn. rewrite decide_False by nra.
  apply bool_decide_eq_true.
  match goal with |- R_sqrt.sqrt ?x <= _ => replace x with 0 by ring end.
  rewrite sqrt_0. lra.
Qed.

Lemma positive_Some (x : R) : 0 < x -> positive (Some x).
Proof. intros Hx. by exists x. Qed.

Lemma nonzero_Some (x : R) : x <> 0 -> nonzero (Some x).
Proof. intros Hx. by exists x. Qed.

Lemma regular_configs_cfg : regular_configs cfg.
Proof. split; [apply nonzero_Some; lra | by eexists]. Qed.

Lemma defined_bodies (l : list (R * R)) :
  defined ((fun xm => body xm.1 xm.2) <$> l).
Proof.
  apply Forall_fmap, Forall_forall. intros [x m] _.
  repeat split; by eexists.
Qed.



Lemma regular_coincident : regular coincident.
Proof.
  split_and!.
  - apply (defined_bodies [(0, 1); (0, 1)]).
  - repeat constructor; by eexists.
  - simpl. lia.
  - intros k Hk. simpl in Hk.
    assert (k = 0 \/ k = 1)%nat as [-> | ->] by lia;
      (split; [apply positive_Some|apply nonzero_Some]; lra).
Qed.

Lemma regular_cloth_there :
  regular_cloth (particlesPerEdge cfg * particlesPerEdge cfg) cloth_there.
Proof.
  split_and!.
  - apply (defined_bodies [(0, 1)]).
  - simpl. lia.
  - intros k Hk. simpl in Hk. assert (k = 0)%nat as -> by lia.
    apply positive_Some. lra.
Qed.

End OnChecked.

(** * Further properties *)

(** ** Few bodies, and the number of pair steps *)

Lemma length_bind_const {A B} (f : A -> list B) (g : A -> nat) (l : list A) :
  (forall a, a ∈ l -> length (f a) = g a) ->
  length (l ≫= f) = sum_list (g <$> l).
Proof.
  induction l as [|a l IH]; intros Hf; simpl; [done|].
  rewrite length_app, Hf by left. f_equal. apply IH. intros a' Ha'. apply Hf. by right.
Qed.

Lemma sum_descending (k a : nat) :
  2 * sum_list ((fun j => a + k - (j + 1)) <$> seq a k) = k * (k - 1).
Proof.
  revert a. induction k as [|k IH]; intros a; [done|].
  simpl seq. rewrite fmap_cons. simpl sum_list.
  rewrite (list_fmap_ext _ (fun j => S a + k - (j + 1)) (seq (S a) k))
    by (intros; lia).
  pose proof (IH (S a)) as IH'. nia.
Qed.

Lemma length_pairs n : 2 * length (pairs n) = n * (n - 1).
Proof.
  unfold pairs.
  rewrite (length_bind_const _ (fun j => 0 + n - (j + 1))).
  - apply sum_descending.
  - intros j _. rewrite length_fmap, length_seq. lia.
Qed.

Lemma length_cloth_pairs n m : length (cloth_pairs n m) = n * m.
Proof.
  unfold cloth_pairs. rewrite (length_bind_const _ (fun _ => m)).
  - generalize 0. induction n as [|n IH]; intros a; simpl; [done|]. by rewrite IH.
  - intros j _. by rewrite length_fmap, length_seq.
Qed.

Section Few.
Context {F : Type} `{Scalar F}.
Variable cfg : Configs F.
Implicit Types (s : Spheres F) (cloth : Cloth F).

(** X1.  With no sphere or a single one [Spheres::collide()] does nothing;
    with no sphere, or with a cloth of no particle, the collision with the
    cloth does nothing. *)
Theorem collide_of_few_bodies s cloth :
  (sphereCount s <= 1 -> collide cfg s = s) /\
  (sphereCount s = 0 \/ particlesPerEdge cfg = 0 ->
   collide_cloth cfg s cloth = (s, cloth)).
Proof.
  split.
  - intros Hn. rewrite collide_foldl.
    assert (pairs (sphereCount s) = []) as ->; [|done].
    apply length_zero_iff_nil. pose proof (length_pairs (sphereCount s)). nia.
  - intros Hn. rewrite collide_cloth_foldl.
    assert (cloth_pairs (sphereCount s) (particlesPerEdge cfg * particlesPerEdge cfg)
            = []) as ->; [|done].
    apply length_zero_iff_nil. rewrite length_cloth_pairs. nia.
Qed.

(** X2.  The detection is brute force and tests each pair once:
    [Spheres::collide()] on [n] spheres is the sequence of the steps of the
    pairs [(j, i)] with [j < i < n], each taken once, which are
    [n * (n - 1) / 2] steps; the collision with a cloth of [m] particles
    is the sequence of the steps of the pairs of a sphere and a particle,
    each taken once, which are [n * m] steps. *)
Theorem collide_tests_each_pair_once s cloth :
  let n := sphereCount s in
  let m := particlesPerEdge cfg * particlesPerEdge cfg in
  (collide cfg s = foldl (fun s ji => collide_pair cfg ji.1 ji.2 s) s (pairs n) /\
   NoDup (pairs n) /\
   (forall j i, (j, i) ∈ pairs n <-> j < i < n) /\
   2 * length (pairs n) = n * (n - 1)) /\
  (collide_cloth cfg s cloth
   = foldl (fun sc ji => collide_cloth_pair cfg ji.1 ji.2 sc) (s, cloth)
       (cloth_pairs n m) /\
   NoDup (cloth_pairs n m) /\
   (forall j i, (j, i) ∈ cloth_pairs n m <-> j < n /\ i < m) /\
   length (cloth_pairs n m) = n * m).
Proof.
  intros n m. split_and!.
  - apply collide_foldl.
  - apply NoDup_pairs.
  - intros j i. apply elem_of_pairs.
  - apply length_pairs.
  - apply collide_cloth_foldl.
  - apply NoDup_cloth_pairs.
  - intros j i. apply elem_of_cloth_pairs.
  - apply length_cloth_pairs.
Qed.
End Few.

(** ** More on [addSphere] *)

Section AddSphereMore.
Context {F : Type} `{Scalar F}.
Variable cfg : Configs F.
Variable uninit : Particle F.
Implicit Types (s : Spheres F) (pos : Vec4 F) (size : F).

(** X3.  After any sequence of calls of [addSphere] on a new object the
    capacity is a power of two that the count does not exceed, the radius
    buffer has as many slots, and from the first sphere on the capacity is
    less than twice the count. *)
Theorem addSphere_capacity_power_of_two (calls : list (Vec4 F * F)) :
  let s := add_all cfg uninit calls in
  let cap := getCapacity (_particles s) in
  (exists e, cap = 2 ^ e) /\
  sphereCount s <= cap /\
  length (_radius s) = cap /\
  (0 < sphereCount s -> cap < 2 * sphereCount s).
Proof.
  cbv zeta.
  assert (let s := add_all cfg uninit calls in
          let cap := getCapacity (_particles s) in
          (exists e, cap = 2 ^ e) /\ sphereCount s <= cap /\
          length (_radius s) = cap /\
          (0 < sphereCount s -> cap < 2 * sphereCount s) /\
          (sphereCount s = 0 -> cap = 1)) as Hinv; [|cbv zeta in Hinv; tauto].
  induction calls as [|[pos size] calls IH] using rev_ind.
  { simpl. split_and!; try done; try lia. by exists 0. }
  rewrite add_all_snoc. cbv zeta in *.
  set (s := add_all cfg uninit calls) in *.
  destruct IH as ([e He] & Hle & Hlen & Hlt & H0).
  rewrite addSphere_count, addSphere_capacity, addSphere_radius_length.
  assert (1 <= 2 ^ e) by (clear; induction e; simpl; lia).
  destruct (Nat.eqb_spec (sphereCount s) (getCapacity (_particles s))) as [Heq|Hne].
  - split_and!; try lia. exists (S e). rewrite Heq, He. simpl. lia.
  - split_and!; try lia. by exists e.
Qed.

(** X4.  After any sequence of calls of [addSphere] on a new object every
    sphere is where it was added and at rest: its velocity and its
    acceleration are zero. *)
Theorem addSphere_spheres_at_rest (calls : list (Vec4 F * F)) k pos size :
  calls !! k = Some (pos, size) ->
  let P := _particles (add_all cfg uninit calls) in
  position P k = pos /\ velocity P k = vzero /\ acceleration P k = vzero.
Proof.
  revert k pos size. induction calls as [|[pos' size'] calls IH] using rev_ind;
    intros k pos size Hk; [done|].
  cbv zeta. rewrite add_all_snoc.
  destruct (add_all_invariant cfg uninit calls) as (Hn & Hcap & Hone & Hlen & _).
  set (s := add_all cfg uninit calls) in *.
  apply lookup_app_Some in Hk as [Hk|[Hge Hk]].
  - assert (k < sphereCount s) as Hkn.
    { rewrite Hn. by apply lookup_lt_Some in Hk. }
    unfold position, velocity, acceleration.
    rewrite addSphere_lookup_old by done. by apply (IH k pos size).
  - apply list_lookup_singleton_Some in Hk as [Hk0 [= <- <-]].
    assert (k = sphereCount s) as -> by lia.
    pose proof (addSphere_capacity cfg uninit pos' size' s) as Hc.
    pose proof (addSphere_radius_length cfg uninit pos' size' s) as Hr.
    destruct (addSphere_lookup_new cfg uninit pos' size' s)
      as (_ & p & Hp & Hpos & Hv & Ha & _).
    + rewrite Hc. destruct (Nat.eqb_spec (sphereCount s) (getCapacity (_particles s))); lia.
    + rewrite Hr. destruct (Nat.eqb_spec (sphereCount s) (getCapacity (_particles s))); lia.
    + unfold position, velocity, acceleration. rewrite Hp. done.
Qed.

(** X5.  [addSphere] writes neither an inverse mass nor a rotation: in
    every slot that existed before the call, the slot of the new sphere
    among them when no reallocation takes place, the inverse mass and the
    rotation are what they were, whatever mass the new sphere gets. *)
Theorem addSphere_keeps_inverse_mass_and_rotation pos size s k :
  k < getCapacity (_particles s) ->
  let P' := _particles (addSphere cfg uninit pos size s) in
  inverseMass P' k = inverseMass (_particles s) k /\
  rotation P' k = rotation (_particles s) k.
Proof.
  intros Hk. cbv zeta. unfold addSphere, getCapacity in *.
  assert (forall (P : Particles F) n,
            inverseMass
              (alter (set_mass (sphereDensity cfg *! size *! size *! size)) n
                 (alter (set_acceleration vzero) n
                    (alter (set_velocity vzero) n (alter (set_position pos) n P)))) k
            = inverseMass P k /\
            rotation
              (alter (set_mass (sphereDensity cfg *! size *! size *! size)) n
                 (alter (set_acceleration vzero) n
                    (alter (set_velocity vzero) n (alter (set_position pos) n P)))) k
            = rotation P k) as Hwrites.
  { intros P n. unfold inverseMass, rotation.
    rewrite !(field_alter_same p_inverseMass), !(field_alter_same p_rotation);
      try (intros []; reflexivity). done. }
  destruct (Nat.eqb_spec (sphereCount s) (length (_particles s))) as [Heq|Hne]; simpl.
  - destruct (Hwrites (resize (sphereCount s * 2) uninit (_particles s)) (sphereCount s))
      as [-> ->].
    unfold inverseMass, rotation. rewrite lookup_resize by lia. done.
  - apply Hwrites.
Qed.
End AddSphereMore.

(** ** The sizes of the buffers of the renderer *)

Section RendererFacts.
Context {F : Type} `{Scalar F}.
Variable cfg : Configs F.
Variable uninit : Particle F.

Lemma render_all_snoc calls c :
  render_all cfg uninit (calls ++ [c])
  = (addSphere cfg uninit c.1 c.2 (render_all cfg uninit calls).1,
     addSphere_allocate (render_all cfg uninit calls).1 (render_all cfg uninit calls).2).
Proof. unfold render_all. by rewrite foldl_app. Qed.

Lemma render_all_spheres calls :
  (render_all cfg uninit calls).1 = add_all cfg uninit calls.
Proof.
  induction calls as [|c calls IH] using rev_ind; [done|].
  rewrite render_all_snoc. destruct c as [pos size].
  rewrite add_all_snoc. cbn [fst snd]. by rewrite IH.
Qed.

(** X6.  The loads stay within the allocations.  After any sequence of
    calls of [addSphere] on a new object, the size last given to
    [offsets.allocate] is that of four floats for each slot and the size
    last given to [sizes.allocate] that of one float for each slot; so the
    bytes that the last [addSphere] loaded into [sizes] are exactly the
    bytes allocated, and the bytes that [draw] loads into [offsets] are
    not more than the bytes allocated. *)
Theorem loads_fit_allocations (calls : list (Vec4 F * F)) :
  let s := (render_all cfg uninit calls).1 in
  let b := (render_all cfg uninit calls).2 in
  offsets_bytes b = 4 * getCapacity (_particles s) * sizeof_float /\
  sizes_bytes b = getCapacity (_particles s) * sizeof_float /\
  addSphere_load s = sizes_bytes b /\
  draw_load s <= offsets_bytes b.
Proof.
  cbv zeta.
  assert (offsets_bytes (render_all cfg uninit calls).2
          = 4 * getCapacity (_particles (render_all cfg uninit calls).1) * sizeof_float /\
          sizes_bytes (render_all cfg uninit calls).2
          = getCapacity (_particles (render_all cfg uninit calls).1) * sizeof_float)
    as [Ho Hs].
  { induction calls as [|[pos size] calls IH] using rev_ind; [done|].
    rewrite render_all_snoc. cbn [fst snd].
    rewrite addSphere_capacity. unfold addSphere_allocate.
    destruct (Nat.eqb _ _); cbn [offsets_bytes sizes_bytes]; [lia|exact IH]. }
  destruct (add_all_invariant cfg uninit calls) as (_ & Hle & _ & Hlen & _).
  rewrite <- render_all_spheres in Hle, Hlen.
  unfold addSphere_load, draw_load. rewrite Ho, Hs, Hlen.
  unfold sizeof_float. split_and!; try done. lia.
Qed.
End RendererFacts.

(** ** The mesh of the unit sphere *)

Section Blocks.
Context {A B : Type}.
Implicit Types (g : nat -> list B) (l : list A).

Lemma for_range_app (body : nat -> list B -> list B) g lo hi acc :
  (forall k acc, body k acc = acc ++ g k) ->
  for_range lo hi body acc = acc ++ (seq lo (hi - lo) ≫= g).
Proof.
  intros Hb. rewrite for_range_foldl. generalize (seq lo (hi - lo)). intros l.
  revert acc. induction l as [|k l IH]; intros acc; simpl.
  - by rewrite app_nil_r.
  - by rewrite IH, Hb, app_assoc.
Qed.

Lemma length_blocks (f : A -> list B) l m :
  (forall a, length (f a) = m) -> length (l ≫= f) = length l * m.
Proof.
  intros Hf. induction l as [|a l IH]; [done|].
  rewrite bind_cons, length_app, IH, Hf. simpl. lia.
Qed.

Lemma block_lookup (f : A -> list B) l m k a :
  (forall a, length (f a) = m) -> l !! k = Some a ->
  take m (drop (m * k) (l ≫= f)) = f a.
Proof.
  intros Hf. revert k. induction l as [|a' l IH]; intros k Hk; [done|].
  rewrite bind_cons. destruct k as [|k]; simpl in Hk.
  - injection Hk as ->. rewrite Nat.mul_0_r, drop_0.
    by rewrite take_app_length' by done.
  - replace (m * S k) with (length (f a') + m * k) by (rewrite Hf; lia).
    rewrite drop_app_add. by apply IH.
Qed.
End Blocks.

Section MeshFacts.
Context {F : Type} `{Scalar F} `{FloatMath F}.
Variables sphereStack sphereSlice : nat.
Local Abbreviation vertex_data := (vertex_data sphereStack sphereSlice).
Local Abbreviation index_data := (index_data sphereStack sphereSlice).
Local Abbreviation index_row := (index_row sphereStack sphereSlice).
Local Abbreviation grid_vertex := (grid_vertex sphereStack sphereSlice).
Local Abbreviation grid_index := (grid_index sphereSlice).
Local Abbreviation cell_triangles := (cell_triangles sphereStack sphereSlice).

Lemma vertex_data_rows :
  vertex_data
  = seq 0 (sphereStack + 1) ≫= fun i => seq 0 (sphereSlice + 1) ≫= grid_vertex i.
Proof.
  unfold vertex_data.
  rewrite (for_range_app _ (fun i => seq 0 (sphereSlice + 1) ≫= grid_vertex i));
    [by rewrite Nat.sub_0_r|].
  intros i acc. unfold vertex_row. cbv zeta.
  rewrite (for_range_app _ (grid_vertex i)); [by rewrite Nat.sub_0_r|done].
Qed.

Lemma length_vertex_row i :
  length (seq 0 (sphereSlice + 1) ≫= grid_vertex i) = 6 * (sphereSlice + 1).
Proof. rewrite (length_blocks _ _ 6) by done. rewrite length_seq. lia. Qed.

Lemma length_vertex_data :
  length vertex_data = 6 * ((sphereStack + 1) * (sphereSlice + 1)).
Proof.
  rewrite vertex_data_rows.
  rewrite (length_blocks _ _ _ length_vertex_row), length_seq. lia.
Qed.

Lemma vertex_data_lookup i j :
  i <= sphereStack -> j <= sphereSlice ->
  take 6 (drop (6 * (i * (sphereSlice + 1) + j)) vertex_data) = grid_vertex i j.
Proof.
  intros Hi Hj. rewrite vertex_data_rows.
  assert (seq 0 (sphereStack + 1) !! i = Some i) as Hli
    by (apply lookup_seq; lia).
  assert (seq 0 (sphereSlice + 1) !! j = Some j) as Hlj
    by (apply lookup_seq; lia).
  pose proof (block_lookup _ _ _ _ _ length_vertex_row Hli) as Er.
  pose proof (block_lookup (grid_vertex i) _ 6 _ _ (fun _ => eq_refl) Hlj) as Ec.
  rewrite <- Er in Ec. rewrite <- Ec.
  rewrite (take_drop_commute _ 6 (6 * j)), take_take.
  rewrite Nat.min_l by lia.
  rewrite <- take_drop_commute, drop_drop. do 2 f_equal. lia.
Qed.

(** X7.  The vertex array holds six floats for each point of the grid of
    [sphereStack + 1] by [sphereSlice + 1] points, row after row; the six
    floats of the point of stack [i] and sector [j] are its coordinates
    followed by the same three numbers as its normal. *)
Theorem vertex_data_layout :
  length vertex_data = 6 * ((sphereStack + 1) * (sphereSlice + 1)) /\
  forall i j, i <= sphereStack -> j <= sphereSlice ->
    take 6 (drop (6 * (i * (sphereSlice + 1) + j)) vertex_data) = grid_vertex i j /\
    take 3 (drop 3 (grid_vertex i j)) = take 3 (grid_vertex i j).
Proof.
  split; [apply length_vertex_data|].
  intros i j Hi Hj. split; [by apply vertex_data_lookup|done].
Qed.

(** The number of indices that stack [i] gives for each sector. *)
Local Abbreviation row_weight i :=
  ((if negb (Nat.eqb i 0) then 3 else 0) +
   (if negb (Z.eqb (Z.of_nat i) (Z.of_nat sphereStack - 1)) then 3 else 0)).

Lemma length_index_row i indices :
  length (index_row i indices) = length indices + sphereSlice * row_weight i.
Proof.
  unfold index_row. cbv zeta.
  generalize (u32 (Z.of_nat i * (Z.of_nat sphereSlice + 1))).
  intros k1. generalize (u32 (u32 (k1 + Z.of_nat sphereSlice) + 1)). intros k2.
  unfold for_range. rewrite Nat.sub_0_r. generalize 0 at 1. intros lo.
  revert lo k1 k2 indices.
  induction sphereSlice as [|n IH]; intros lo k1 k2 indices; simpl; [lia|].
  rewrite IH.
  destruct (negb (Nat.eqb i 0)), (negb (Z.eqb _ _)); rewrite ?length_app; simpl; lia.
Qed.

Lemma length_index_rows n indices :
  n <= sphereStack ->
  length (for_loop n 0 index_row indices)
  = length indices
    + sphereSlice * (3 * (n - 1) + 3 * (if Nat.eqb n sphereStack then n - 1 else n)).
Proof.
  rewrite for_loop_foldl. revert indices.
  induction n as [|n IH]; intros indices Hn;
    [destruct (Nat.eqb 0 sphereStack); simpl; rewrite Nat.mul_0_r; lia|].
  rewrite seq_S, foldl_app. cbn [foldl]. rewrite Nat.add_0_l.
  rewrite length_index_row, IH by lia.
  destruct (Nat.eqb_spec n sphereStack); [lia|].
  destruct (Nat.eqb_spec (S n) sphereStack), (Nat.eqb_spec n 0),
    (Z.eqb_spec (Z.of_nat n) (Z.of_nat sphereStack - 1));
    try lia; cbn [negb]; destruct n as [|n]; try lia;
    cbn [Nat.sub]; rewrite ?Nat.sub_0_r; nia.
Qed.

(** X8.  The index array holds [6 * sphereSlice * (sphereStack - 1)]
    indices, which is two triangles for each cell of the grid except the
    cells of the first and of the last stack, which have one; that is
    [6 * sphereSlice] less than the space the function reserves, and
    nothing at all when there is one stack. *)
Theorem index_data_length :
  length index_data = 6 * sphereSlice * (sphereStack - 1) /\
  length index_data <= 6 * sphereStack * sphereSlice.
Proof.
  assert (length index_data = 6 * sphereSlice * (sphereStack - 1)) as E.
  { unfold index_data, for_range. rewrite Nat.sub_0_r.
    rewrite length_index_rows by done. rewrite Nat.eqb_refl. simpl. lia. }
  split; [done|]. rewrite E. nia.
Qed.

Lemma u32_small z : (0 <= z < 2 ^ 32)%Z -> u32 z = z.
Proof. apply Z.mod_small. Qed.

Lemma index_row_cells i indices :
  (Z.of_nat (sphereStack + 1) * Z.of_nat (sphereSlice + 1) < 2 ^ 31)%Z ->
  i < sphereStack ->
  index_row i indices = indices ++ (seq 0 sphereSlice ≫= cell_triangles i).
Proof.
  intros Hb Hi.
  assert (forall i' j, i' <= sphereStack -> j <= sphereSlice ->
            (0 <= grid_index i' j < 2 ^ 31)%Z) as Hg.
  { intros i' j Hi' Hj. unfold grid_index. nia. }
  assert (forall i' j, i' <= sphereStack -> j < sphereSlice ->
            u32 (grid_index i' j + 1) = grid_index i' (j + 1)) as Hs.
  { intros i' j Hi' Hj. rewrite u32_small.
    - unfold grid_index. lia.
    - specialize (Hg i' j Hi'). lia. }
  unfold index_row. cbv zeta.
  replace (u32 (Z.of_nat i * (Z.of_nat sphereSlice + 1))) with (grid_index i 0).
  2:{ rewrite u32_small; [unfold grid_index; lia|].
      pose proof (Hg i 0 ltac:(lia) ltac:(lia)) as Hg0.
      unfold grid_index in Hg0. lia. }
  replace (u32 (u32 (grid_index i 0 + Z.of_nat sphereSlice) + 1))
    with (grid_index (i + 1) 0).
  2:{ pose proof (Hg i sphereSlice ltac:(lia) ltac:(lia)) as Hg1.
      pose proof (Hg (i + 1) 0 ltac:(lia) ltac:(lia)) as Hg2.
      unfold grid_index in Hg1, Hg2 |- *.
      rewrite (u32_small (_ + Z.of_nat sphereSlice)) by lia.
      rewrite u32_small by lia. lia. }
  unfold for_range. rewrite Nat.sub_0_r.
  enough (forall n lo acc, lo + n <= sphereSlice ->
    for_loop n lo
      (fun (j : nat) '(k1, k2, indices) =>
         let indices :=
           if negb (Nat.eqb i 0) then indices ++ [k1; k2; u32 (k1 + 1)] else indices in
         let indices :=
           if negb (Z.eqb (Z.of_nat i) (Z.of_nat sphereStack - 1))
           then indices ++ [u32 (k1 + 1); k2; u32 (k2 + 1)] else indices in
         (u32 (k1 + 1), u32 (k2 + 1), indices))
      (grid_index i lo, grid_index (i + 1) lo, acc)
    = (grid_index i (lo + n), grid_index (i + 1) (lo + n),
       acc ++ (seq lo n ≫= cell_triangles i))) as Hloop.
  { exact (f_equal snd (Hloop sphereSlice 0 indices ltac:(lia))). }
  induction n as [|n IH]; intros lo acc Hlo.
  - by rewrite Nat.add_0_r, app_nil_r.
  - cbn [for_loop]. cbv zeta. rewrite !Hs by lia.
    replace (lo + 1) with (S lo) by lia.
    rewrite IH by lia. cbn [seq]. rewrite bind_cons, app_assoc.
    replace (S lo + n) with (lo + S n) by lia. do 2 f_equal.
    unfold cell_triangles. replace (lo + 1) with (S lo) by lia.
    destruct (negb (Nat.eqb i 0)), (negb (Z.eqb _ _)); cbn [app];
      rewrite <- ?app_assoc, ?app_nil_r; reflexivity.
Qed.

(** X9.  When the number of vertices fits an [int], no index wraps
    around and the index array is, cell after cell, the triangles of the
    grid: for the cell of stack [i] and sector [j] the triangle of the
    points [(i, j)], [(i+1, j)], [(i, j+1)], which is left out in the first
    stack, and the triangle of [(i, j+1)], [(i+1, j)], [(i+1, j+1)], which
    is left out in the last.  Every index is the number of a vertex of the
    vertex array. *)
Theorem index_data_triangles :
  (Z.of_nat (sphereStack + 1) * Z.of_nat (sphereSlice + 1) < 2 ^ 31)%Z ->
  index_data = (seq 0 sphereStack ≫= fun i => seq 0 sphereSlice ≫= cell_triangles i) /\
  Forall (fun k => (0 <= k)%Z /\ 6 * Z.to_nat k + 6 <= length vertex_data) index_data.
Proof.
  intros Hb.
  assert (index_data
          = seq 0 sphereStack ≫= fun i => seq 0 sphereSlice ≫= cell_triangles i) as E.
  { unfold index_data, for_range. rewrite for_loop_foldl, Nat.sub_0_r.
    change (foldl (fun s k => index_row k s) [] (seq 0 sphereStack)
            = [] ++ (seq 0 sphereStack ≫= fun i => seq 0 sphereSlice ≫= cell_triangles i)).
    assert (forall k, k ∈ seq 0 sphereStack -> k < sphereStack) as Hin
      by (intros k Hk; apply elem_of_seq in Hk; lia).
    revert Hin. generalize (seq 0 sphereStack) (@nil Z). intros l.
    induction l as [|i l IH]; intros acc Hin.
    - by rewrite app_nil_r.
    - cbn [foldl]. rewrite index_row_cells by (try done; apply Hin; left).
      rewrite IH by (intros k Hk; apply Hin; by right).
      by rewrite bind_cons, app_assoc. }
  split; [done|]. rewrite E.
  rewrite length_vertex_data.
  apply Forall_forall. intros k Hk.
  apply list_elem_of_bind in Hk as (i & Hk & Hi).
  apply list_elem_of_bind in Hk as (j & Hk & Hj).
  apply elem_of_seq in Hi, Hj.
  assert (forall i' j', i' <= sphereStack -> j' <= sphereSlice ->
            (0 <= grid_index i' j')%Z /\
            6 * Z.to_nat (grid_index i' j') + 6
            <= 6 * ((sphereStack + 1) * (sphereSlice + 1))) as Hg.
  { intros i' j' Hi' Hj'. unfold grid_index. split; [lia|].
    replace (Z.of_nat i' * (Z.of_nat sphereSlice + 1) + Z.of_nat j')%Z
      with (Z.of_nat (i' * (sphereSlice + 1) + j')) by lia.
    rewrite Nat2Z.id. nia. }
  unfold cell_triangles in Hk.
  apply elem_of_app in Hk as [Hk|Hk].
  - destruct (negb (Nat.eqb i 0)); [|by apply elem_of_nil in Hk].
    repeat (apply elem_of_cons in Hk as [->|Hk]); try (apply Hg; lia).
    by apply elem_of_nil in Hk.
  - destruct (negb (Z.eqb _ _)); [|by apply elem_of_nil in Hk].
    repeat (apply elem_of_cons in Hk as [->|Hk]); try (apply Hg; lia).
    by apply elem_of_nil in Hk.
Qed.
End MeshFacts.

(** ** The mesh in exact arithmetic *)

Module ExactMesh.
Import Exact ExactMath.
Local Open Scope R_scope.

End ExactMesh.

(** ** More of the response in exact arithmetic *)

Module ExactMore.
Import Exact ExactFacts.
Local Open Scope R_scope.

Lemma dot_sub_r (n u v : Vec4 R) : dot n (u -^ v) = dot n u - dot n v.
Proof. destruct n, u, v. vectors. scalars. ring. Qed.

Lemma dot_add_r (n u v : Vec4 R) : dot n (u +^ v) = dot n u + dot n v.
Proof. destruct n, u, v. vectors. scalars. ring. Qed.

Lemma dot_opp_r (n u : Vec4 R) : dot n (-^ u) = - dot n u.
Proof. destruct n, u. vectors. scalars. ring. Qed.

Lemma dot_smul_r (n u : Vec4 R) (c : R) : dot n (c *^ u) = c * dot n u.
Proof. destruct n, u. vectors. scalars. ring. Qed.

Lemma dot_vzero_l (u : Vec4 R) : dot vzero u = 0.
Proof. destruct u. vectors. scalars. ring. Qed.

(** The norm of a multiple. *)
Lemma norm_scale (k : R) (v : Vec4 R) :
  0 <= k -> norm (mkVec4 (k * vx v) (k * vy v) (k * vz v) (k * vw v)) = k * norm v.
Proof.
  intros Hk. unfold norm. cbv [sqrt scalar].
  rewrite <- (sqrt_square k Hk) at 5. rewrite <- sqrt_mult_alt by nra.
  f_equal. destruct v. vectors. scalars. ring.
Qed.

Section MoreResponse.
Variable cfg : Configs R.
Implicit Types (s : Spheres R) (cloth : Cloth R).


(** The distance after the positional correction, for centres that are
    apart. *)
Lemma push_out_distance_exact (pi pj : Vec4 R) (pen : R) :
  let vec := pi -^ pj in
  let c := pen *^ normalized vec ^* lit 15 100 in
  0 <= pen -> 0 < norm vec ->
  norm ((pi +^ c) -^ (pj -^ c)) = norm vec + 3 / 10 * pen.
Proof.
  intros vec c Hpen Hd. unfold c.
  destruct (normalized_cases vec) as [(_ & -> & _)|[Hv _]].
  2:{ rewrite Hv in Hd. unfold norm, squaredNorm in Hd.
      rewrite dot_vzero_l in Hd. cbv [sqrt scalar] in Hd. rewrite sqrt_0 in Hd. lra. }
  set (d := norm vec) in *.
  set (k := 1 + 2 * (pen / d * (15 / 100))).
  assert (0 <= pen / d) by (apply Rle_mult_inv_pos; lra).
  assert (0 <= k) as Hk by (unfold k; lra).
  transitivity (k * d); [|unfold k; field; lra].
  change (k * d) with (k * norm vec).
  rewrite <- (norm_scale k vec Hk). f_equal. clearbody d. unfold vec.
  destruct pi as [x1 y1 z1 w1], pj as [x2 y2 z2 w2]. unfold k. vectors. scalars.
  f_equal; field; lra.
Qed.

End MoreResponse.
End ExactMore.

(** ** Coincident centres *)

Module Coincident.
Import Exact ExactFacts.
Local Open Scope R_scope.
Implicit Types (u v : Vec4 R) (c : R) (P : Particles R).

Lemma vsub_self v : v -^ v = vzero.
Proof. destruct v. vectors. scalars. f_equal; ring. Qed.
Lemma vsub_vzero_r v : v -^ vzero = v.
Proof. destruct v. vectors. scalars. f_equal; ring. Qed.
Lemma vadd_vzero_r v : v +^ vzero = v.
Proof. destruct v. vectors. scalars. f_equal; ring. Qed.
Lemma vopp_vzero : -^ (vzero : Vec4 R) = vzero.
Proof. vectors. scalars. f_equal; ring. Qed.
Lemma smul_vzero c : c *^ vzero = vzero.
Proof. vectors. scalars. f_equal; ring. Qed.
Lemma vmul_vzero c : vzero ^* c = vzero.
Proof. vectors. scalars. f_equal; ring. Qed.
Lemma vmul_zero v : v ^* zero = vzero.
Proof. destruct v. vectors. scalars. f_equal; ring. Qed.
Lemma vdiv_vzero c : vzero ^/ c = vzero.
Proof. vectors. scalars. unfold Rdiv. f_equal; ring. Qed.
Lemma cross3_vzero_l v : cross3 vzero v = vzero.
Proof. destruct v. vectors. scalars. f_equal; ring. Qed.
Lemma cross3_vzero_r v : cross3 v vzero = vzero.
Proof. destruct v. vectors. scalars. f_equal; ring. Qed.
Lemma smul_dot_vzero v : dot vzero v *^ vzero = vzero.
Proof. apply smul_vzero. Qed.
Lemma norm_vzero : norm (vzero : Vec4 R) = zero.
Proof.
  unfold norm. cbv [sqrt scalar squaredNorm dot vsum vzero vx vy vz vw mul add zero].
  replace (0 * 0 + 0 * 0 + (0 * 0 + 0 * 0)) with 0 by ring. apply sqrt_0.
Qed.
Lemma normalized_vzero : normalized (vzero : Vec4 R) = vzero.
Proof.
  destruct (normalized_cases vzero) as [(H & _)|[_ H]]; [|done].
  rewrite norm_vzero in H. cbv [zero scalar] in H. lra.
Qed.

Lemma add_velocity_vzero k P : add_velocity k vzero P = P.
Proof.
  unfold add_velocity. apply list_alter_id. intros []. unfold set_velocity; simpl.
  by rewrite vadd_vzero_r.
Qed.
Lemma add_rotation_vzero k P : add_rotation k vzero P = P.
Proof.
  unfold add_rotation. apply list_alter_id. intros []. unfold set_rotation; simpl.
  by rewrite vadd_vzero_r.
Qed.
Lemma add_position_vzero k P : add_position k vzero P = P.
Proof.
  unfold add_position. apply list_alter_id. intros []. unfold set_position; simpl.
  by rewrite vadd_vzero_r.
Qed.
Lemma sub_position_vzero k P : sub_position k vzero P = P.
Proof.
  unfold sub_position. apply list_alter_id. intros []. unfold set_position; simpl.
  by rewrite vsub_vzero_r.
Qed.

Create Rewrite HintDb vz.
#[export] Hint Rewrite vsub_self vsub_vzero_r vadd_vzero_r vopp_vzero smul_vzero
  vmul_vzero vmul_zero vdiv_vzero cross3_vzero_l cross3_vzero_r norm_vzero
  normalized_vzero add_velocity_vzero add_rotation_vzero add_position_vzero
  sub_position_vzero : vz.

(** Replaces the local definition [x] by zero, or by the buffer [P0] or
    [C0], when its body rewrites to that. *)
Ltac vanish Heq P0 C0 x :=
  let T := type of x in
  let H := fresh in
  lazymatch T with
  | Vec4 _ =>
      try (assert (x = vzero) as H
             by (unfold x; rewrite ?Heq; autorewrite with vz; reflexivity);
           clearbody x; subst x)
  | R =>
      try (assert (x = zero) as H
             by (unfold x; rewrite ?Heq; autorewrite with vz; reflexivity);
           clearbody x; subst x)
  | list (Particle _) =>
      first [ assert (x = P0) as H by (unfold x; autorewrite with vz; reflexivity)
            | assert (x = C0) as H by (unfold x; autorewrite with vz; reflexivity) ];
      clearbody x; subst x
  | _ => idtac
  end.

Ltac lets_vanish Psi Heq P0 C0 :=
  repeat lazymatch goal with
  | |- Psi (let x := ?a in @?f x) =>
      change (let x := a in Psi (f x)); intro; cbv beta;
      lazymatch goal with x := _ |- _ => vanish Heq P0 C0 x end
  end.

Section CoincidentResponse.
Variable cfg : Configs R.
Implicit Types (s : Spheres R) (cloth : Cloth R).

Lemma respond_coincident s j i :
  position (_particles s) i = position (_particles s) j ->
  after_correction (respond cfg s j i) = _particles s.
Proof.
  intros Heq.
  set (Psi := fun t : Trace (Particles R) => after_correction t = _particles s).
  change (Psi (respond cfg s j i)).
  with_strategy transparent [respond] (cbv beta delta [respond]).
  lets_vanish Psi Heq (_particles s) (_particles s).
  reflexivity.
Qed.

Lemma respond_cloth_coincident s cloth j i :
  position (particles cloth) i = position (_particles s) j ->
  after_correction (respond_cloth cfg s cloth j i) = (_particles s, particles cloth).
Proof.
  intros Heq.
  set (Psi := fun t : Trace (Particles R * Particles R) =>
                after_correction t = (_particles s, particles cloth)).
  change (Psi (respond_cloth cfg s cloth j i)).
  with_strategy transparent [respond_cloth] (cbv beta delta [respond_cloth]).
  lets_vanish Psi Heq (_particles s) (particles cloth).
  reflexivity.
Qed.

End CoincidentResponse.
End Coincident.

(** ** Momentum of the whole response *)

Module Conservation.
Import Exact ExactFacts Coincident.
Local Open Scope R_scope.

(** Reads a field through the writes of the local buffers. *)
Ltac peel Hji Hij Hj Hi :=
  repeat first
    [ rewrite velocity_sub_position | rewrite velocity_add_position
    | rewrite velocity_add_rotation
    | rewrite mass_sub_position | rewrite mass_add_position
    | rewrite mass_add_rotation | rewrite mass_add_velocity
    | rewrite inverseMass_sub_position | rewrite inverseMass_add_position
    | rewrite inverseMass_add_rotation | rewrite inverseMass_add_velocity
    | rewrite rotation_sub_position | rewrite rotation_add_position
    | rewrite rotation_add_velocity
    | rewrite length_add_velocity | rewrite length_add_rotation
    | rewrite length_add_position | rewrite length_sub_position
    | rewrite velocity_add_velocity_ne by first [exact Hji | exact Hij]
    | rewrite velocity_add_velocity
    | match goal with
      | |- context [velocity ?Q _] => is_var Q; unfold Q
      | |- context [mass ?Q _] => is_var Q; unfold Q
      | |- context [inverseMass ?Q _] => is_var Q; unfold Q
      | |- context [rotation ?Q _] => is_var Q; unfold Q
      | |- (_ < length ?Q)%nat => is_var Q; unfold Q
      end
    | exact Hj | exact Hi ].

Section ConservedResponse.
Variable cfg : Configs R.
Implicit Types (s : Spheres R) (cloth : Cloth R).

Lemma respond_momentum s j i :
  let P := _particles s in
  j <> i -> (j < length P)%nat -> (i < length P)%nat ->
  rotation P j = vzero -> rotation P i = vzero ->
  mass P j <> 0 -> mass P i <> 0 -> mass P j + mass P i <> 0 ->
  inverseMass P j = / mass P j -> inverseMass P i = / mass P i ->
  momentum (after_correction (respond cfg s j i)) j i = momentum P j i.
Proof.
  intros P0 Hji Hj Hi Hrj Hri Hmj Hmi Hm Hvj Hvi.
  assert (i <> j) as Hij by congruence.
  set (Psi := fun t : Trace (Particles R) =>
                momentum (after_correction t) j i = momentum P0 j i).
  change (Psi (respond cfg s j i)).
  with_strategy transparent [respond] (cbv beta delta [respond]).
  lets_out Psi.
  cbv beta iota delta [Psi after_correction momentum].
  assert (rotate_direction_1 = vzero) as E1.
  { unfold rotate_direction_1. peel Hji Hij Hj Hi. fold P0. rewrite Hrj.
    by autorewrite with vz. }
  assert (rotate_direction_2 = vzero) as E2.
  { unfold rotate_direction_2. peel Hji Hij Hj Hi. fold P0. rewrite Hri.
    by autorewrite with vz. }
  clearbody rotate_direction_1 rotate_direction_2. subst.
  peel Hji Hij Hj Hi.
  autorewrite with vz.
  fold P0. rewrite Hvj, Hvi.
  unfold v1_after, v2_after, move_friction_1, move_friction_2, v1, v2, m1, m2,
    coefRestitution.
  change P with P0.
  generalize (normalized vec) (deltaTime cfg) (frictionCoef cfg)
    normal_force_value v0 v3.
  intros n dt mu N t1 t2.
  generalize (dot n (velocity P0 j)) (dot n (velocity P0 i)). intros a b.
  revert Hmj Hmi Hm.
  generalize (mass P0 j) (mass P0 i) (velocity P0 j) (velocity P0 i).
  clear. intros a1 a2 u1 u2 Hmj Hmi Hm.
  destruct n as [nx ny nz nw], t1 as [x3 y3 z3 w3], t2 as [x0 y0 z0 w0].
  destruct u1 as [x1 y1 z1 w1], u2 as [x2 y2 z2 w2].
  vectors. scalars. f_equal; field; done.
Qed.

Lemma respond_cloth_momentum s cloth j i :
  let P := _particles s in
  let C := particles cloth in
  (j < length P)%nat -> (i < length C)%nat ->
  rotation P j = vzero ->
  mass P j <> 0 -> mass C i <> 0 -> mass P j + mass C i <> 0 ->
  inverseMass P j = / mass P j -> inverseMass C i = / mass C i ->
  momentum_cloth (after_correction (respond_cloth cfg s cloth j i)).1
    (after_correction (respond_cloth cfg s cloth j i)).2 j i
  = momentum_cloth P C j i.
Proof.
  intros P0 C0 Hj Hi Hrj Hmj Hmi Hm Hvj Hvi.
  set (Psi := fun t : Trace (Particles R * Particles R) =>
                momentum_cloth (after_correction t).1 (after_correction t).2 j i
                = momentum_cloth P0 C0 j i).
  change (Psi (respond_cloth cfg s cloth j i)).
  with_strategy transparent [respond_cloth] (cbv beta delta [respond_cloth]).
  lets_out Psi.
  cbv beta iota delta [Psi after_correction momentum_cloth fst snd].
  assert (rotate_direction_1 = vzero) as E1.
  { unfold rotate_direction_1. peel Hj Hj Hj Hi. fold P0. rewrite Hrj.
    by autorewrite with vz. }
  clearbody rotate_direction_1. subst.
  assert (rotate_friction_2 = vzero) as E2.
  { unfold rotate_friction_2. by autorewrite with vz. }
  clearbody rotate_friction_2. subst.
  peel Hj Hj Hj Hi.
  autorewrite with vz.
  fold P0 C0. rewrite Hvj, Hvi.
  unfold v1_after, v2_after, move_friction_1, move_friction_2, v1, v2, m1, m2.
  change P with P0. change C with C0.
  generalize (normalized vec) (deltaTime cfg) (frictionCoef cfg)
    normal_force_value v0 v3.
  intros n dt mu N t1 t2.
  generalize (dot n (velocity P0 j)) (dot n (velocity C0 i)). intros a b.
  revert Hmj Hmi Hm.
  generalize (mass P0 j) (mass C0 i) (velocity P0 j) (velocity C0 i).
  clear. intros a1 a2 u1 u2 Hmj Hmi Hm.
  destruct n as [nx ny nz nw], t1 as [x3 y3 z3 w3], t2 as [x0 y0 z0 w0].
  destruct u1 as [x1 y1 z1 w1], u2 as [x2 y2 z2 w2].
  vectors. scalars. f_equal; field; done.
Qed.

End ConservedResponse.
End Conservation.

(** ** Kinetic energy *)

Module Energy.
Import Exact ExactFacts.
Local Open Scope R_scope.

Lemma squaredNorm_normal_replaced (n v : Vec4 R) (c : R) :
  dot n n = 1 \/ n = vzero ->
  squaredNorm (v +^ (-^ (dot n v *^ n) +^ c *^ n))
  = squaredNorm v + (c * c - dot n v * dot n v) * dot n n.
Proof.
  intros [Hn | ->].
  - destruct n as [nx ny nz nw], v as [x y z w]. vectors. scalars.
    set (a := nx * x + ny * y + (nz * z + nw * w)) in *.
    set (N := nx * nx + ny * ny + (nz * nz + nw * nw)) in *.
    transitivity (x * x + y * y + (z * z + w * w) + 2 * (c - a) * a
                  + (c - a) * (c - a) * N); [unfold a, N; ring|].
    rewrite Hn. ring.
  - destruct v as [x y z w]. vectors. scalars. ring.
Qed.

Lemma dot_unit_or_zero (n : Vec4 R) :
  dot n n = 1 \/ n = vzero -> dot n n * dot n n = dot n n.
Proof. intros [-> | ->]; [lra|]. vectors. scalars. ring. Qed.

Section EnergyResponse.
Variable cfg : Configs R.
Implicit Types (s : Spheres R) (cloth : Cloth R).

Lemma impulse_energy s j i :
  let P := _particles s in
  let n := normalized (position P i -^ position P j) in
  let m1 := mass P j in
  let m2 := mass P i in
  let a := dot n (velocity P j) in
  let b := dot n (velocity P i) in
  j <> i -> (j < length P)%nat -> (i < length P)%nat -> m1 + m2 <> 0 ->
  kinetic (after_impulse (respond cfg s j i)) (after_impulse (respond cfg s j i)) j i
  = kinetic P P j i - 36 / 100 * (m1 * m2 / (m1 + m2)) * ((a - b) * (a - b)).
Proof.
  intros P n m1 m2 a b Hji Hj Hi Hm. unfold kinetic.
  rewrite respond_after_impulse. cbv zeta. fold P n m1 m2.
  rewrite !mass_add_velocity.
  rewrite (velocity_add_velocity_ne i) by done.
  rewrite (velocity_add_velocity j) by done.
  rewrite (velocity_add_velocity i) by (by rewrite length_add_velocity).
  rewrite (velocity_add_velocity_ne j) by done.
  fold m1 m2.
  rewrite !after_along_normal.
  pose proof (normalized_unit_or_zero (position P i -^ position P j)) as Hn.
  fold n in Hn.
  rewrite !squaredNorm_normal_replaced by done. fold a b.
  pose proof (dot_unit_or_zero n Hn) as HN.
  assert (dot n n <> 1 -> a = 0 /\ b = 0) as Hz.
  { intros Hne. destruct Hn as [?| ->]; [done|]. unfold a, b.
    destruct (velocity P j), (velocity P i). vectors. scalars. split; ring. }
  scalars.
  destruct Hn as [-> | Hn0].
  - field. done.
  - destruct Hz as [-> ->].
    { rewrite Hn0. vectors. scalars. lra. }
    rewrite Hn0. vectors. scalars. field. done.
Qed.

Lemma impulse_cloth_energy s cloth j i :
  let P := _particles s in
  let C := particles cloth in
  let n := normalized (position C i -^ position P j) in
  let m1 := mass P j in
  let m2 := mass C i in
  let a := dot n (velocity P j) in
  let b := dot n (velocity C i) in
  (j < length P)%nat -> (i < length C)%nat -> m1 + m2 <> 0 ->
  kinetic (after_impulse (respond_cloth cfg s cloth j i)).1
    (after_impulse (respond_cloth cfg s cloth j i)).2 j i
  = kinetic P C j i - m1 * m2 / (m1 + m2) * ((a - b) * (a - b)).
Proof.
  intros P C n m1 m2 a b Hj Hi Hm. unfold kinetic.
  rewrite respond_cloth_after_impulse. cbv zeta. fold P C n m1 m2.
  cbn [fst snd].
  rewrite !mass_add_velocity.
  rewrite (velocity_add_velocity j) by done.
  rewrite (velocity_add_velocity i) by done.
  fold m1 m2.
  rewrite !inelastic_along_normal.
  pose proof (normalized_unit_or_zero (position C i -^ position P j)) as Hn.
  fold n in Hn.
  rewrite !squaredNorm_normal_replaced by done. fold a b.
  assert (dot n n <> 1 -> a = 0 /\ b = 0) as Hz.
  { intros Hne. destruct Hn as [?| ->]; [done|]. unfold a, b.
    destruct (velocity P j), (velocity C i). vectors. scalars. split; ring. }
  scalars.
  destruct Hn as [-> | Hn0].
  - field. done.
  - destruct Hz as [-> ->].
    { rewrite Hn0. vectors. scalars. lra. }
    rewrite Hn0. vectors. scalars. field. done.
Qed.

Lemma loss_nonneg (k m1 m2 d : R) :
  0 <= k -> 0 < m1 -> 0 < m2 -> 0 <= k * (m1 * m2 / (m1 + m2)) * (d * d).
Proof.
  intros Hk H1 H2.
  assert (0 < m1 * m2 / (m1 + m2)).
  { apply Rdiv_lt_0_compat; [by apply Rmult_lt_0_compat|lra]. }
  assert (0 <= d * d) by nra.
  apply Rmult_le_pos; [apply Rmult_le_pos; lra|done].
Qed.

End EnergyResponse.
End Energy.

(** ** Positions that are not numbers *)

Module NotANumber.
Import B32 B32Facts.
Implicit Types (x y : spec_float) (u v : Vec4 spec_float).

Lemma add_nan_l y : S754_nan +! y = S754_nan.
Proof. by destruct y. Qed.
Lemma add_nan_r x : x +! S754_nan = S754_nan.
Proof. by destruct x. Qed.
Lemma sub_nan_l y : S754_nan -! y = S754_nan.
Proof. by destruct y. Qed.
Lemma sub_nan_r x : x -! S754_nan = S754_nan.
Proof. by destruct x. Qed.
Lemma mul_nan x : is_nan x = true -> x *! x = S754_nan.
Proof. by destruct x. Qed.
Lemma is_nan_eq x : is_nan x = true -> x = S754_nan.
Proof. by destruct x. Qed.

Lemma has_nan_sub u v : has_nan u || has_nan v = true -> has_nan (u -^ v) = true.
Proof.
  destruct u as [a b c d], v as [a' b' c' d']. unfold has_nan; cbn [vx vy vz vw vsub].
  intros Hn. repeat (apply orb_prop in Hn as [Hn|Hn]);
    apply is_nan_eq in Hn; subst; rewrite ?sub_nan_l, ?sub_nan_r; cbn [is_nan];
    by rewrite ?orb_true_r.
Qed.

Lemma norm_has_nan v : has_nan v = true -> norm v = S754_nan.
Proof.
  destruct v as [a b c d]. unfold has_nan, norm, squaredNorm, dot, vsum, vmul.
  cbn [vx vy vz vw]. intros Hn.
  repeat (apply orb_prop in Hn as [Hn|Hn]);
    rewrite (mul_nan _ Hn), ?add_nan_l, ?add_nan_r; reflexivity.
Qed.

Lemma leb_nan y : (S754_nan <=! y) = false.
Proof. by destruct y. Qed.

Section Skip.
Variable cfg : Configs spec_float.
Implicit Types (s : Spheres spec_float) (cloth : Cloth spec_float).

(** X16.  In binary32 a body with a position that has a coordinate that is
    not a number collides with nothing: each step of a pair with that body
    leaves the spheres, and the cloth, as they are. *)
Theorem nan_position_is_never_in_contact s cloth j i :
  let P := _particles s in
  let C := particles cloth in
  (has_nan (position P j) || has_nan (position P i) = true ->
   collide_pair cfg j i s = s) /\
  (has_nan (position P j) || has_nan (position C i) = true ->
   collide_cloth_pair cfg j i (s, cloth) = (s, cloth)).
Proof.
  intros P C. split; intros Hn.
  - unfold collide_pair, touching. fold P.
    rewrite norm_has_nan, leb_nan; [done|].
    apply has_nan_sub. by rewrite orb_comm.
  - unfold collide_cloth_pair, touching_cloth. fold P C.
    rewrite norm_has_nan, leb_nan; [done|].
    apply has_nan_sub. by rewrite orb_comm.
Qed.
End Skip.
End NotANumber.

(** ** The further properties on the examples *)

Module MoreOnBinary32.
Import B32 Examples32.

Lemma collide_of_few_bodies_witness :
  let s1 := add_all cfg (body zero zero) [(vzero, num 1 1)] in
  let s0 := initSpheres (body zero zero) in
  (sphereCount s1 <= 1 /\ collide cfg s1 = s1) /\
  ((sphereCount s0 = 0 \/ particlesPerEdge cfg = 0) /\
   collide_cloth cfg s0 cloth_near = (s0, cloth_near)).
Proof.
  intros s1 s0.
  assert (sphereCount s1 <= 1) as H1 by (vm_compute; lia).
  assert (sphereCount s0 = 0 \/ particlesPerEdge cfg = 0) as H0 by (left; reflexivity).
  split; (split; [assumption|]).
  - exact (proj1 (collide_of_few_bodies cfg s1 cloth_near) H1).
  - exact (proj2 (collide_of_few_bodies cfg s0 cloth_near) H0).
Defined.

Lemma collide_tests_each_pair_once_witness :
  (0 < 1 < sphereCount three /\ (0, 1) ∈ pairs (sphereCount three)) /\
  ((2 < sphereCount three /\ 0 < particlesPerEdge cfg * particlesPerEdge cfg) /\
   (2, 0) ∈ cloth_pairs (sphereCount three)
              (particlesPerEdge cfg * particlesPerEdge cfg)).
Proof.
  destruct (collide_tests_each_pair_once cfg three cloth_two)
    as ((_ & _ & Hp & _) & (_ & _ & Hc & _)).
  assert (0 < 1 < sphereCount three) as H1 by (simpl; lia).
  assert (2 < sphereCount three /\ 0 < particlesPerEdge cfg * particlesPerEdge cfg)
    as H2 by (simpl; lia).
  split; (split; [assumption|]).
  - apply Hp, H1.
  - apply Hc, H2.
Defined.

Lemma addSphere_capacity_power_of_two_witness :
  let s := add_all cfg (body zero zero)
             [(vzero, num 1 1); (vzero, num 1 1); (vzero, num 1 1)] in
  0 < sphereCount s /\ getCapacity (_particles s) < 2 * sphereCount s.
Proof.
  intros s.
  assert (0 < sphereCount s) as H0 by (vm_compute; lia).
  split; [assumption|].
  destruct (addSphere_capacity_power_of_two cfg (body zero zero)
              [(vzero, num 1 1); (vzero, num 1 1); (vzero, num 1 1)])
    as (_ & _ & _ & H).
  exact (H H0).
Defined.

Lemma addSphere_spheres_at_rest_witness :
  let calls := [(vzero, num 1 1); (vec3 (num 4 1) zero zero, num 1 1)] in
  let P := _particles (add_all cfg (body zero (num 1 1)) calls) in
  calls !! 1 = Some (vec3 (num 4 1) zero zero, num 1 1) /\
  position P 1 = vec3 (num 4 1) zero zero /\
  velocity P 1 = vzero /\ acceleration P 1 = vzero.
Proof.
  intros calls P.
  assert (calls !! 1 = Some (vec3 (num 4 1) zero zero, num 1 1)) as H1
    by reflexivity.
  split; [assumption|].
  exact (addSphere_spheres_at_rest cfg (body zero (num 1 1)) calls 1 _ _ H1).
Defined.

Lemma addSphere_keeps_inverse_mass_and_rotation_witness :
  let P' := _particles (addSphere cfg (body zero zero) vzero (num 2 1) spinning) in
  1 < getCapacity (_particles spinning) /\
  inverseMass P' 1 = inverseMass (_particles spinning) 1 /\
  rotation P' 1 = rotation (_particles spinning) 1.
Proof.
  intros P'.
  assert (1 < getCapacity (_particles spinning)) as H1 by (vm_compute; lia).
  split; [assumption|].
  exact (addSphere_keeps_inverse_mass_and_rotation cfg (body zero zero) vzero
           (num 2 1) spinning 1 H1).
Defined.

Lemma nan_position_is_never_in_contact_witness :
  let s := mkSpheres 2 [body S754_nan zero; body zero zero] [num 1 1; num 1 1] in
  let P := _particles s in
  let C := particles cloth_near in
  (has_nan (position P 0) || has_nan (position P 1) = true /\
   collide_pair cfg 0 1 s = s) /\
  (has_nan (position P 0) || has_nan (position C 0) = true /\
   collide_cloth_pair cfg 0 0 (s, cloth_near) = (s, cloth_near)).
Proof.
  intros s P C.
  assert (has_nan (position P 0) || has_nan (position P 1) = true) as H1
    by (vm_compute; reflexivity).
  assert (has_nan (position P 0) || has_nan (position C 0) = true) as H2
    by (vm_compute; reflexivity).
  split; (split; [assumption|]).
  - exact (proj1 (NotANumber.nan_position_is_never_in_contact cfg s cloth_near 0 1) H1).
  - exact (proj2 (NotANumber.nan_position_is_never_in_contact cfg s cloth_near 0 0) H2).
Defined.
End MoreOnBinary32.

Module MoreOnExact.
Import Exact ExactFacts ExactMath ExamplesExact.
Local Open Scope R_scope.

Lemma vertex_data_layout_witness :
  (1 <= 2 /\ 2 <= 3)%nat /\
  take 6 (drop (6 * (1 * (3 + 1) + 2)) (vertex_data (F:=R) 2 3))
  = grid_vertex 2 3 1 2 /\
  take 3 (drop 3 (grid_vertex (F:=R) 2 3 1 2)) = take 3 (grid_vertex 2 3 1 2).
Proof.
  assert (1 <= 2 /\ 2 <= 3)%nat as H by lia.
  split; [assumption|].
  destruct (vertex_data_layout (F:=R) 2 3) as [_ Hl].
  exact (Hl 1%nat 2%nat (proj1 H) (proj2 H)).
Defined.

Lemma index_data_triangles_witness :
  (Z.of_nat (2 + 1) * Z.of_nat (3 + 1) < 2 ^ 31)%Z /\
  index_data 2 3
  = (seq 0 2 ≫= fun i => seq 0 3 ≫= cell_triangles 2 3 i) /\
  Forall (fun k => (0 <= k)%Z /\ (6 * Z.to_nat k + 6 <= length (vertex_data (F:=R) 2 3))%nat)
    (index_data 2 3).
Proof.
  assert (Z.of_nat (2 + 1) * Z.of_nat (3 + 1) < 2 ^ 31)%Z as H by (simpl; lia).
  split; [assumption|].
  exact (index_data_triangles (F:=R) 2 3 H).
Defined.


Lemma in_range_resting :
  (0 <> 1 /\ 0 < length (_particles resting) /\ 1 < length (_particles resting))%nat.
Proof. repeat split; [discriminate|simpl; lia|simpl; lia]. Qed.

Lemma in_range_cloth_near :
  (0 < length (_particles resting) /\ 0 < length (particles cloth_near))%nat.
Proof. split; simpl; lia. Qed.


Lemma resting_apart : position (_particles resting) 1 <> position (_particles resting) 0.
Proof. cbn. intros [=]. lra. Qed.

Lemma cloth_near_apart :
  position (particles cloth_near) 0 <> position (_particles resting) 0.
Proof. cbn. intros [=]. lra. Qed.



Lemma resting_masses :
  let P := _particles resting in
  let C := particles cloth_near in
  (0 < mass P 0 /\ 0 < mass P 1 /\ 0 < mass C 0) /\
  (inverseMass P 0 = / mass P 0 /\ inverseMass P 1 = / mass P 1 /\
   inverseMass C 0 = / mass C 0) /\
  (rotation P 0 = vzero /\ rotation P 1 = vzero).
Proof.
  cbn. split_and!; try lra; try reflexivity; symmetry; apply Rinv_1.
Qed.


End MoreOnExact.
